(** * timewarp: procedural tunnel shaders and their SDL/OpenGL host

    A shallow embedding of the fragment shaders and of the host program of
    the repository, and the properties of the specification checked on it.

    Numbers.  The host's C++ [float] values are IEEE 754 binary32 numbers,
    computed with the executable specification of the standard library
    (round to nearest, ties to even).  GLSL [float] values are modelled as
    real numbers ([R]); decimal literals of the shaders denote the decimals
    they spell, and rounding, overflow and NaN on the GPU are outside this
    model.  A division of the shader source by a value that depends on the
    inputs is checked: dividing by zero gives no result ([None]), which is
    how the embedding shows the Inf/NaN a GPU would produce there.
    Divisions by the shaders' own non-zero constants, and the built-ins, use
    the division of [R].

    Layout.  First the definitions, one module per translation unit:
    - [Glsl]       the GLSL built-ins the shaders call;
    - [Circles]    fragment shader of shader1-circles.cpp;
    - [Plasma]     fragment shader of the second ray-marching program;
    - [TunnelDev]  fragment shader of shader3-tunnel-DEV-NOT-WORKING.cpp;
    - [Single45]   fragment shader of shader5-45single.cpp;
    - [ThorTunnel] fragment shader of the hammer tunnel program;
    - [Rings]      fragment shader of the plain rings-and-stripes program;
    - [Binary32]   the host's floating-point arithmetic;
    - [Host]       the C++ side: shader build, uniform lookup, event loop.
    Then the lemmas and the theorems. *)

From Stdlib Require Import ZArith QArith Qreals Reals Machin SpecFloat.
From Stdlib Require Import List String Bool.
From Stdlib Require Import Lia Lqa Lra.
Import ListNotations.

(* ================================================================== *)
(** * Definitions *)
(* ================================================================== *)

(** ** GLSL built-ins over real numbers *)
Module Glsl.
Local Open Scope R_scope.

Record vec2 := Vec2 { v2x : R; v2y : R }.
Record vec3 := Vec3 { v3x : R; v3y : R; v3z : R }.
Record vec4 := Vec4 { v4x : R; v4y : R; v4z : R; v4w : R }.

(** Column-major 2x2 matrix: [mat2(a, b, c, d)] has columns (a,b) and (c,d). *)
Record mat2 := Mat2 { m00 : R; m01 : R; m10 : R; m11 : R }.

Definition floor (x : R) : R := IZR (Int_part x).
Definition fract (x : R) : R := x - floor x.

(** [mod(x, y) = x - y * floor(x / y)]. *)
Definition mod_ (x y : R) : R := x - y * floor (x / y).

(** [max(x, y)]: y if x < y, otherwise x.  [min(x, y)]: y if y < x. *)
Definition max (x y : R) : R := if Rlt_dec x y then y else x.
Definition min (x y : R) : R := if Rlt_dec y x then y else x.

Definition abs (x : R) : R := Rabs x.

Definition clamp (x lo hi : R) : R := min (max x lo) hi.

(** [mix(a, b, t) = a * (1 - t) + b * t]. *)
Definition mix (a b t : R) : R := a * (1 - t) + b * t.

(** [smoothstep(e0, e1, x)]: Hermite interpolation of the clamped ratio. *)
Definition smoothstep (e0 e1 x : R) : R :=
  let t := clamp ((x - e0) / (e1 - e0)) 0 1 in
  t * t * (3 - 2 * t).

(** [pow(x, y)] for the uses of the shaders (y > 0): 0 at x = 0, and
    exp (y ln x) for x > 0.  GLSL leaves x < 0 undefined; 0 stands for it. *)
Definition pow (x y : R) : R :=
  if Rlt_dec 0 x then Rpower x y else 0.

(** Two-argument arc tangent [atan(y, x)], the angle of the point (x, y). *)
Definition atan2 (y x : R) : R :=
  if Rlt_dec 0 x then atan (y / x)
  else if Rlt_dec x 0 then
         (if Rlt_dec y 0 then atan (y / x) - PI else atan (y / x) + PI)
  else if Rlt_dec 0 y then PI / 2
  else if Rlt_dec y 0 then - (PI / 2)
  else 0.

Definition dot2 (a b : vec2) : R := v2x a * v2x b + v2y a * v2y b.
Definition length2 (a : vec2) : R := sqrt (dot2 a a).
Definition length3 (a : vec3) : R :=
  sqrt (v3x a * v3x a + v3y a * v3y a + v3z a * v3z a).

Definition normalize2 (a : vec2) : vec2 :=
  Vec2 (v2x a / length2 a) (v2y a / length2 a).
Definition normalize3 (a : vec3) : vec3 :=
  Vec3 (v3x a / length3 a) (v3y a / length3 a) (v3z a / length3 a).

Definition add2 (a b : vec2) : vec2 := Vec2 (v2x a + v2x b) (v2y a + v2y b).
Definition sub2 (a b : vec2) : vec2 := Vec2 (v2x a - v2x b) (v2y a - v2y b).
Definition scale2 (a : vec2) (k : R) : vec2 := Vec2 (v2x a * k) (v2y a * k).
Definition adds2 (a : vec2) (k : R) : vec2 := Vec2 (v2x a + k) (v2y a + k).
Definition mul2 (a b : vec2) : vec2 := Vec2 (v2x a * v2x b) (v2y a * v2y b).
Definition neg2 (a : vec2) : vec2 := Vec2 (- v2x a) (- v2y a).
Definition mix2 (a b : vec2) (t : R) : vec2 :=
  Vec2 (mix (v2x a) (v2x b) t) (mix (v2y a) (v2y b) t).

Definition add3 (a b : vec3) : vec3 :=
  Vec3 (v3x a + v3x b) (v3y a + v3y b) (v3z a + v3z b).
Definition scale3 (a : vec3) (k : R) : vec3 :=
  Vec3 (v3x a * k) (v3y a * k) (v3z a * k).
Definition mul3 (a b : vec3) : vec3 :=
  Vec3 (v3x a * v3x b) (v3y a * v3y b) (v3z a * v3z b).
Definition mix3 (a b : vec3) (t : R) : vec3 :=
  Vec3 (mix (v3x a) (v3x b) t) (mix (v3y a) (v3y b) t) (mix (v3z a) (v3z b) t).
Definition clamp3 (a : vec3) (lo hi : R) : vec3 :=
  Vec3 (clamp (v3x a) lo hi) (clamp (v3y a) lo hi) (clamp (v3z a) lo hi).
Definition pow3 (a e : vec3) : vec3 :=
  Vec3 (pow (v3x a) (v3x e)) (pow (v3y a) (v3y e)) (pow (v3z a) (v3z e)).
Definition splat3 (k : R) : vec3 := Vec3 k k k.

(** Matrix times column vector. *)
Definition mulmv (m : mat2) (v : vec2) : vec2 :=
  Vec2 (m00 m * v2x v + m10 m * v2y v) (m01 m * v2x v + m11 m * v2y v).

(** Column-major 3x3 matrix: [mat3(c0, c1, c2)] has the three columns. *)
Record mat3 := Mat3 { col0 : vec3; col1 : vec3; col2 : vec3 }.

Definition sub3 (a b : vec3) : vec3 :=
  Vec3 (v3x a - v3x b) (v3y a - v3y b) (v3z a - v3z b).

(** Matrix times column vector, and the matrix operations of [hueShift]. *)
Definition mulmv3 (m : mat3) (v : vec3) : vec3 :=
  add3 (add3 (scale3 (col0 m) (v3x v)) (scale3 (col1 m) (v3y v)))
       (scale3 (col2 m) (v3z v)).
Definition add_m3 (a b : mat3) : mat3 :=
  Mat3 (add3 (col0 a) (col0 b)) (add3 (col1 a) (col1 b)) (add3 (col2 a) (col2 b)).
Definition scale_m3 (k : R) (a : mat3) : mat3 :=
  Mat3 (scale3 (col0 a) k) (scale3 (col1 a) k) (scale3 (col2 a) k).
Definition mul_m3 (a b : mat3) : mat3 :=
  Mat3 (mulmv3 a (col0 b)) (mulmv3 a (col1 b)) (mulmv3 a (col2 b)).

(** The explicit [/] of the shader source: no result on a zero divisor. *)
Definition fdiv (a b : R) : option R :=
  if Req_EM_T b 0 then None else Some (a / b).

Definition bind {A B : Type} (m : option A) (k : A -> option B) : option B :=
  match m with
  | Some a => k a
  | None => None
  end.

(** A colour whose three channels all lie in [0,1]. *)
Definition in_unit (c : vec3) : Prop :=
  0 <= v3x c <= 1 /\ 0 <= v3y c <= 1 /\ 0 <= v3z c <= 1.

(** Two colours whose channels differ by at most [eps]. *)
Definition within (eps : R) (a b : vec3) : Prop :=
  Rabs (v3x a - v3x b) <= eps
  /\ Rabs (v3y a - v3y b) <= eps
  /\ Rabs (v3z a - v3z b) <= eps.

End Glsl.

Notation "x <- m ;; k" := (Glsl.bind m (fun x => k))
  (at level 61, m at next level, right associativity).

(** The vertex shader shared by all programs:
    [uv = inPos * 0.5 + 0.5]. *)
Definition vertex_uv (inPos : Glsl.vec2) : Glsl.vec2 :=
  Glsl.adds2 (Glsl.scale2 inPos 0.5%R) 0.5%R.

(** Normalised device coordinate of the window position (px, py) under
    [glViewport(0, 0, w, h)]. *)
Definition ndc_of_pixel (w h px py : R) : Glsl.vec2 :=
  Glsl.Vec2 (2 * px / w - 1)%R (2 * py / h - 1)%R.

(** ** shader1-circles.cpp: fragment shader *)
Module Circles.
Import Glsl.
Local Open Scope R_scope.

Record Uniforms := {
  iTime : R;
  iResolution : vec2;
  speed : R;
  warp : R;
  thickness : R;
  colorShift : R
}.

Definition hash21 (p : vec2) : R :=
  let p := Vec2 (fract (v2x p * 123.34)) (fract (v2y p * 456.21)) in
  let p := adds2 p (dot2 p (adds2 p 45.32)) in
  fract (v2x p * v2y p).

Definition noise (p : vec2) : R :=
  let i := Vec2 (floor (v2x p)) (floor (v2y p)) in
  let f := Vec2 (fract (v2x p)) (fract (v2y p)) in
  let f := Vec2 (v2x f * v2x f * (3.0 - 2.0 * v2x f))
                (v2y f * v2y f * (3.0 - 2.0 * v2y f)) in
  let a := hash21 i in
  let b := hash21 (add2 i (Vec2 1.0 0.0)) in
  let c := hash21 (add2 i (Vec2 0.0 1.0)) in
  let d := hash21 (add2 i (Vec2 1.0 1.0)) in
  mix (mix a b (v2x f)) (mix c d (v2x f)) (v2y f).

Definition palette (u : Uniforms) (t : R) : vec3 :=
  let r := 0.5 + 0.5 * sin (6.28318 * (t + 0.00 + colorShift u)) in
  let g := 0.5 + 0.5 * sin (6.28318 * (t + 0.33 + colorShift u)) in
  let b := 0.5 + 0.5 * sin (6.28318 * (t + 0.66 + colorShift u)) in
  Vec3 r g b.

Definition tunnelSDF (u : Uniforms) (p : vec3) : R :=
  let r := length2 (Vec2 (v3x p) (v3y p)) in
  let wave := 0.3 * sin (6.0 * v3z p + 2.0 * sin (3.0 * v3z p + iTime u * 0.6)) in
  let rings := 0.2 * sin (40.0 * (r + 0.5 * sin (2.0 * v3z p + iTime u))) in
  let radius := 1.0 + wave + rings in
  r - radius.

(** The variables the ray-march loop updates. *)
Record March := { t : R; glow : R; accum : R }.

(** One pass through the body of the [for] loop, up to the [break] test. *)
Definition march_body (u : Uniforms) (ro rd : vec3) (s : March) : March :=
  let thicknessLocal := thickness u in
  let pos := add3 ro (scale3 rd (t s)) in
  let zWrapped := mod_ (v3z pos) 12.566370 in
  let rp := Vec3 (v3x pos) (v3y pos) zWrapped in
  let d := tunnelSDF u rp in
  let hit := exp (-20.0 * abs d) in
  let n := noise (Vec2 (v3x pos * 1.3 + iTime u * 0.5)
                       (v3y pos * 1.3 - iTime u * 0.3)) in
  let layer := 0.5 + 0.5 * sin (8.0 * v3z pos + 3.0 * n + iTime u * 2.0) in
  {| accum := accum s + hit * layer;
     glow := glow s + hit * (1.0 - smoothstep 0.0 thicknessLocal (abs d));
     t := t s + max 0.02 (0.5 * abs d) |}.

(** [for (int i = 0; i < 120; i++) { body; if (t > 100.0) break; }],
    with [n] the iterations that remain. *)
Fixpoint march_loop (n : nat) (u : Uniforms) (ro rd : vec3) (s : March) : March :=
  match n with
  | O => s
  | S k =>
      let s' := march_body u ro rd s in
      if Rlt_dec 100.0 (t s') then s' else march_loop k u ro rd s'
  end.

(** The same loop, recording the state after every pass it executes. *)
Fixpoint march_trace (n : nat) (u : Uniforms) (ro rd : vec3) (s : March)
  : list March :=
  match n with
  | O => []
  | S k =>
      let s' := march_body u ro rd s in
      if Rlt_dec 100.0 (t s') then [s'] else s' :: march_trace k u ro rd s'
  end.

Definition budget : nat := 120.

Definition ray_origin (u : Uniforms) : vec3 :=
  Vec3 0.0 0.0 (iTime u * speed u).

Definition ray_dir (u : Uniforms) (p : vec2) : vec3 :=
  normalize3 (Vec3 (v2x p) (v2y p) (-1.5 + 0.3 * sin (iTime u * 0.2))).

Definition march_init : March := {| t := 0.0; glow := 0.0; accum := 0.0 |}.

(** The screen coordinate [p]: [uv * 2 - 1], x scaled by the aspect ratio. *)
Definition screen_p (u : Uniforms) (uv : vec2) : option vec2 :=
  let p := adds2 (scale2 uv 2.0) (- 1.0) in
  aspect <- fdiv (v2x (iResolution u)) (v2y (iResolution u)) ;;
  Some (Vec2 (v2x p * aspect) (v2y p)).

Definition march (u : Uniforms) (p : vec2) : March :=
  march_loop budget u (ray_origin u) (ray_dir u p) march_init.

(** [depth = clamp(exp(-0.02 * t), 0, 1)] after the loop. *)
Definition depth_of (s : March) : R := clamp (exp (-0.02 * t s)) 0.0 1.0.

(** Everything of [main] after the loop. *)
Definition shade (u : Uniforms) (p : vec2) (s : March) : vec3 :=
  let depth := depth_of s in
  let intensity := clamp (accum s * 0.6 + glow s * 0.8) 0.0 2.5 in
  let palettePos := fract ((iTime u * 0.1 * warp u) + (t s * 0.02) + accum s * 0.1) in
  let col := scale3 (palette u palettePos) intensity in
  let veins := 0.5 + 0.5 * sin (20.0 * length2 p - iTime u * 2.5
                                + noise (scale2 p 10.0)) in
  let col := add3 col (scale3 (scale3 (palette u (palettePos + 0.2)) 0.15) veins) in
  let vig := smoothstep 1.2 0.2 (length2 p) in
  let col := scale3 col vig in
  let col := mix3 (Vec3 0.02 0.02 0.03) col depth in
  pow3 (clamp3 col 0.0 1.0) (splat3 0.8).

(** The fragment shader: the colour written to [fragColor.rgb]. *)
Definition main (u : Uniforms) (uv : vec2) : option vec3 :=
  p <- screen_p u uv ;;
  Some (shade u p (march u p)).

(** The depth factor [main] computes on the way. *)
Definition main_depth (u : Uniforms) (uv : vec2) : option R :=
  p <- screen_p u uv ;;
  Some (depth_of (march u p)).

End Circles.

(** ** The second ray-marching program (drifting centre, 140 steps) *)
Module Plasma.
Import Glsl.
Local Open Scope R_scope.

Record Uniforms := {
  iTime : R;
  iResolution : vec2;
  speed : R;
  warp : R;
  thickness : R;
  colorShift : R
}.

Definition hash21 (p : vec2) : R :=
  let p := Vec2 (fract (v2x p * 123.34)) (fract (v2y p * 456.21)) in
  let p := adds2 p (dot2 p (adds2 p 45.32)) in
  fract (v2x p * v2y p).

Definition noise (p : vec2) : R :=
  let i := Vec2 (floor (v2x p)) (floor (v2y p)) in
  let f := Vec2 (fract (v2x p)) (fract (v2y p)) in
  let f := Vec2 (v2x f * v2x f * (3.0 - 2.0 * v2x f))
                (v2y f * v2y f * (3.0 - 2.0 * v2y f)) in
  let a := hash21 i in
  let b := hash21 (add2 i (Vec2 1.0 0.0)) in
  let c := hash21 (add2 i (Vec2 0.0 1.0)) in
  let d := hash21 (add2 i (Vec2 1.0 1.0)) in
  mix (mix a b (v2x f)) (mix c d (v2x f)) (v2y f).

Definition palette (u : Uniforms) (t : R) : vec3 :=
  let r := 0.5 + 0.5 * sin (6.28318 * (t + 0.00 + colorShift u)) in
  let g := 0.5 + 0.5 * sin (6.28318 * (t + 0.33 + colorShift u)) in
  let b := 0.5 + 0.5 * sin (6.28318 * (t + 0.66 + colorShift u)) in
  Vec3 r g b.

Definition tunnelSDF (u : Uniforms) (p : vec3) : R :=
  let r := length2 (Vec2 (v3x p) (v3y p)) in
  let wave := 0.35 * sin (6.0 * v3z p + 2.0 * sin (3.0 * v3z p + iTime u * 0.6)) in
  let rings := 0.22 * sin (40.0 * (r + 0.6 * sin (2.0 * v3z p + iTime u))) in
  let radius := 1.0 + wave + rings in
  r - radius.

Definition rot (a : R) : mat2 :=
  let s := sin a in
  let c := cos a in
  Mat2 c (- s) s c.

Record March := {
  t : R; glow : R; accumR : R; accumG : R; accumB : R
}.

Definition march_body (u : Uniforms) (ro rd : vec3) (s : March) : March :=
  let thicknessLocal := thickness u in
  let pos := add3 ro (scale3 rd (t s)) in
  let zWrapped :=
    mod_ (v3z pos + 10.0 * sin (iTime u * 0.15 + v3x pos * 0.07)) 12.566370 in
  let rp := Vec3 (v3x pos) (v3y pos) zWrapped in
  let d := tunnelSDF u rp in
  let hit := exp (-24.0 * abs d) in
  let n := noise (Vec2 (v3x pos * 1.6 + iTime u * 0.6)
                       (v3y pos * 1.6 - iTime u * 0.4)) in
  let layerBase := 0.5 + 0.5 * sin (10.0 * v3z pos + 4.0 * n + iTime u * 3.0) in
  let pulse := 0.6 + 0.4 * sin (v3z pos * 3.0 + iTime u * 4.0 + n * 6.0) in
  let lr := layerBase * (1.0 + 0.2 * sin (iTime u * 2.3 + v3z pos * 2.0 + n * 3.0)) in
  let lg := layerBase * (1.0 + 0.2 * sin (iTime u * 2.7 + v3z pos * 2.2 + n * 2.5)) in
  let lb := layerBase * (1.0 + 0.2 * sin (iTime u * 3.1 + v3z pos * 2.4 + n * 2.0)) in
  {| accumR := accumR s + hit * lr * pulse;
     accumG := accumG s + hit * lg * pulse;
     accumB := accumB s + hit * lb * pulse;
     glow := glow s + hit * (1.0 - smoothstep 0.0 thicknessLocal (abs d));
     t := t s + max 0.015 (0.45 * abs d) |}.

(** [for (int i = 0; i < 140; i++) { body; if (t > 200.0) break; }]. *)
Fixpoint march_loop (n : nat) (u : Uniforms) (ro rd : vec3) (s : March) : March :=
  match n with
  | O => s
  | S k =>
      let s' := march_body u ro rd s in
      if Rlt_dec 200.0 (t s') then s' else march_loop k u ro rd s'
  end.

Fixpoint march_trace (n : nat) (u : Uniforms) (ro rd : vec3) (s : March)
  : list March :=
  match n with
  | O => []
  | S k =>
      let s' := march_body u ro rd s in
      if Rlt_dec 200.0 (t s') then [s'] else s' :: march_trace k u ro rd s'
  end.

Definition budget : nat := 140.

Definition march_init : March :=
  {| t := 0.0; glow := 0.0; accumR := 0.0; accumG := 0.0; accumB := 0.0 |}.

Definition centerMove (u : Uniforms) : vec2 :=
  let c := scale2 (Vec2 (sin (iTime u * 0.6) * 0.35) (cos (iTime u * 0.4) * 0.25))
                  (0.5 + 0.5 * warp u) in
  add2 c (scale2 (Vec2 (noise (Vec2 (iTime u * 0.7) 0.0))
                       (noise (Vec2 0.0 (iTime u * 0.9)))) 0.08).

(** The screen coordinate after aspect correction, centre offset and swirl. *)
Definition screen_p (u : Uniforms) (uv : vec2) : option vec2 :=
  let p := adds2 (scale2 uv 2.0) (- 1.0) in
  aspect <- fdiv (v2x (iResolution u)) (v2y (iResolution u)) ;;
  let p := Vec2 (v2x p * aspect) (v2y p) in
  let p := sub2 p (scale2 (centerMove u) 0.6) in
  let r := length2 p in
  inv <- fdiv 1.0 (0.5 + r) ;;
  let swirlStrength := 0.8 * inv * warp u in
  let swirlAngle := iTime u * 0.8 + 2.0 * sin (iTime u * 0.4 + r * 6.0) in
  Some (mulmv (rot (swirlAngle * swirlStrength)) p).

Definition ray_origin (u : Uniforms) : vec3 :=
  let c := scale2 (centerMove u) 2.0 in
  Vec3 (v2x c) (v2y c) (iTime u * speed u).

Definition ray_dir (u : Uniforms) (p : vec2) : vec3 :=
  normalize3 (Vec3 (v2x p) (v2y p) (-1.6 + 0.5 * sin (iTime u * 0.2))).

Definition march (u : Uniforms) (p : vec2) : March :=
  march_loop budget u (ray_origin u) (ray_dir u p) march_init.

Definition shade (u : Uniforms) (uv p : vec2) (s : March) : vec3 :=
  let chromaBase :=
    scale2 (scale2 (Vec2 (sin (iTime u * 1.7)) (cos (iTime u * 1.3))) 0.003)
           (1.0 + warp u) in
  let depth := clamp (exp (-0.018 * t s)) 0.0 1.0 in
  let basePos := fract ((iTime u * 0.12 * warp u) + (t s * 0.018)) in
  let posR := fract (basePos + accumR s * 0.08 + 0.01) in
  let posG := fract (basePos + accumG s * 0.06 + 0.00) in
  let posB := fract (basePos + accumB s * 0.04 - 0.01) in
  let colR := palette u posR in
  let colG := palette u posG in
  let colB := palette u posB in
  let intenR := clamp (accumR s * 0.55 + glow s * 0.9) 0.0 3.0 in
  let intenG := clamp (accumG s * 0.55 + glow s * 0.9) 0.0 3.0 in
  let intenB := clamp (accumB s * 0.55 + glow s * 0.9) 0.0 3.0 in
  let col := mul3 (Vec3 (v3x colR) (v3y colG) (v3z colB))
                  (Vec3 intenR intenG intenB) in
  let col := add3 col (scale3 (scale3 (palette u (basePos + 0.2)) 0.15)
                        (0.5 + 0.5 * noise (adds2 (scale2 p 8.0) (iTime u * 0.7)))) in
  let veins := 0.5 + 0.5 * sin (30.0 * length2 p - iTime u * 3.2
                                + noise (scale2 p 12.0)) in
  let col := add3 col (scale3 (scale3 (palette u (basePos + 0.35)) 0.12) veins) in
  let centerBoost :=
    smoothstep 0.7 0.0 (length2 p) * (1.0 + 0.8 * sin (iTime u * 1.5)) in
  let col := add3 col (scale3 (palette u (basePos + 0.5)) (0.25 * centerBoost)) in
  let vig := smoothstep 1.3 0.18 (length2 p) in
  let col := scale3 col vig in
  let col := mix3 (Vec3 0.015 0.015 0.02) col depth in
  let caShiftR := scale2 chromaBase 1.5 in
  let caShiftB := scale2 (neg2 chromaBase) 1.5 in
  let caNoise := noise (adds2 (scale2 uv 10.0) (iTime u * 0.3)) in
  let col := Vec3 (mix (v3x col)
                       (v3x (palette u (fract (basePos + caNoise * 0.02 + 0.02)))) 0.12)
                  (v3y col)
                  (mix (v3z col)
                       (v3z (palette u (fract (basePos - caNoise * 0.02 - 0.02)))) 0.12) in
  pow3 (clamp3 col 0.0 1.0) (splat3 0.85).

Definition main (u : Uniforms) (uv : vec2) : option vec3 :=
  p <- screen_p u uv ;;
  Some (shade u uv p (march u p)).

End Plasma.

(** ** shader3-tunnel-DEV-NOT-WORKING.cpp: fragment shader *)
Module TunnelDev.
Import Glsl.
Local Open Scope R_scope.

Record Uniforms := {
  uResolution : vec2;
  uTime : R
}.

Definition smoothstep01 (x : R) : R := smoothstep 0.0 1.0 (clamp x 0.0 1.0).

Definition easeInOut (t : R) : R :=
  let t := clamp t 0.0 1.0 in
  t * t * (3.0 - 2.0 * t).

Definition rot (a : R) : mat2 :=
  let s := sin a in
  let c := cos a in
  Mat2 c (- s) s c.

(** [int(x)]: conversion of a float to an integer drops the fraction. *)
Definition int_ (x : R) : Z :=
  if Rlt_dec x 0 then (- Int_part (- x))%Z else Int_part x.

Definition cardinal (idx : Z) : vec2 :=
  if (idx =? 0)%Z then Vec2 1.0 0.0
  else if (idx =? 1)%Z then Vec2 0.0 1.0
  else if (idx =? 2)%Z then Vec2 (- 1.0) 0.0
  else Vec2 0.0 (- 1.0).

Definition pathDirection (z : R) : vec2 :=
  let segLen := 6.0 in
  let blendLen := 2.2 in
  let t := z / segLen in
  let i := floor t in
  let f := fract t in
  let idx := int_ (mod_ i 4.0) in
  let dir := cardinal idx in
  let idxNext := int_ (mod_ (i + 1.0) 4.0) in
  let dirNext := cardinal idxNext in
  let cornerStart := 1.0 - (blendLen / segLen) in
  let w := easeInOut ((f - cornerStart) / (1.0 - cornerStart)) in
  normalize2 (mix2 dir dirNext w).

Definition pathCenter (z : R) : vec2 :=
  let segLen := 6.0 in
  let i := floor (z / segLen) in
  let f := fract (z / segLen) in
  let dir := pathDirection z in
  let bowAmp := 1.6 in
  let turnPhase := easeInOut f in
  let perp := Vec2 (- v2y dir) (v2x dir) in
  let bow := bowAmp * sin (3.14159 * turnPhase) * smoothstep01 turnPhase in
  let forward := scale2 dir (f * segLen) in
  add2 forward (scale2 perp bow).

Definition tunnelMaterial (uv : vec2) (r a z : R) : vec3 :=
  let rings := sin (10.0 * r - 0.6 * z) in
  let stripes := sin (8.0 * a + 1.2 * z) in
  let mixv := 0.5 + 0.5 * rings * stripes in
  let baseA := Vec3 0.10 0.25 0.90 in
  let baseB := Vec3 0.95 0.30 0.10 in
  let col := mix3 baseA baseB (0.5 + 0.5 * sin (a * 2.0)) in
  let col := scale3 col (0.6 + 0.4 * mixv) in
  let v := smoothstep 1.4 0.2 r in
  scale3 col (0.6 + 0.4 * v).

(** The fragment shader.  The colour pipeline [col] is computed and then
    not used: the last statement writes the debug colour
    [vec4(p * 0.5 + 0.5, 0.0, 1.0)]. *)
Definition main (u : Uniforms) (gl_FragCoord : vec2) : option vec3 :=
  let num := sub2 (scale2 gl_FragCoord 2.0) (uResolution u) in
  px <- fdiv (v2x num) (v2y (uResolution u)) ;;
  py <- fdiv (v2y num) (v2y (uResolution u)) ;;
  let p := Vec2 px py in
  let time := uTime u in
  let speed := 1.6 in
  let z := time * speed in
  let dir := pathDirection z in
  let bank := 0.6 * sin (0.7 * z) in
  let bankRot := rot bank in
  let center := pathCenter z in
  let center := scale2 center 0.15 in
  let q := mulmv bankRot (sub2 p center) in
  let r := length2 q in
  let a := atan2 (v2y q) (v2x q) in
  let repeat_ := 6.0 in
  let axial := z + 1.5 * r in
  let stripePhase := mod_ axial repeat_ / repeat_ in
  let turnEase := easeInOut (fract (z / 6.0)) in
  let a := a + 0.35 * turnEase * sin (2.0 * a) in
  let base := tunnelMaterial q r a z in
  let ca := 0.004 + 0.002 * turnEase in
  let qR := add2 (mulmv bankRot (sub2 p center)) (Vec2 ca 0.0) in
  let qG := mulmv bankRot (sub2 p center) in
  let qB := sub2 (mulmv bankRot (sub2 p center)) (Vec2 ca 0.0) in
  let rR := length2 qR in
  let rG := length2 qG in
  let rB := length2 qB in
  let aR := atan2 (v2y qR) (v2x qR) in
  let aG := atan2 (v2y qG) (v2x qG) in
  let aB := atan2 (v2y qB) (v2x qB) in
  let col := Vec3 (v3x (tunnelMaterial qR rR aR z))
                  (v3y (tunnelMaterial qG rG aG z))
                  (v3z (tunnelMaterial qB rB aB z)) in
  let glow := exp (-10.0 * r) in
  let col := add3 col (scale3 (scale3 (Vec3 0.9 0.9 1.0) glow)
                              (0.5 + 0.5 * sin (1.5 * z))) in
  let rings := 0.5 + 0.5 * sin (10.0 * r - 0.6 * z) in
  let col := scale3 col (0.8 + 0.2 * rings) in
  let col := pow3 col (splat3 0.9) in
  let FragColor := Vec3 (v2x p * 0.5 + 0.5) (v2y p * 0.5 + 0.5) 0.0 in
  Some FragColor.

End TunnelDev.

(** ** shader5-45single.cpp: fragment shader *)
Module Single45.
Import Glsl.
Local Open Scope R_scope.

Record Uniforms := {
  iResolution : vec2;
  iTime : R;
  speed : R;
  warp : R;
  thickness : R;
  colorShift : R
}.

(** Fallback to 1280x720 if the resolution is zero or negative. *)
Definition safeResolution (res : vec2) : vec2 :=
  if Rle_dec (v2x res) 0.0 then Vec2 1280.0 720.0
  else if Rle_dec (v2y res) 0.0 then Vec2 1280.0 720.0
  else res.

Definition main (u : Uniforms) (gl_FragCoord : vec2) : option vec3 :=
  let res := safeResolution (iResolution u) in
  let num := sub2 (scale2 gl_FragCoord 2.0) res in
  px <- fdiv (v2x num) (v2y res) ;;
  py <- fdiv (v2y num) (v2y res) ;;
  let p := Vec2 px py in
  let z := iTime u * max (speed u) 0.001 in
  let r := length2 p in
  let a := atan2 (v2y p) (v2x p) in
  let a := a + warp u * 0.25 * sin (2.0 * a + 0.8 * z) in
  let rings := smoothstep (thickness u) 0.0 (abs (sin (10.0 * r - 0.7 * z))) in
  let stripes := 0.5 + 0.5 * sin (6.0 * a + 1.1 * z + colorShift u) in
  let baseA := Vec3 0.12 0.25 0.90 in
  let baseB := Vec3 0.95 0.30 0.10 in
  let col := mix3 baseA baseB stripes in
  let col := scale3 col (0.45 + 0.55 * rings) in
  Some col.

End Single45.

(** ** shader6 (ThorTunnel), the second program of shader5-45single.cpp *)
Module ThorTunnel.
Import Glsl.
Local Open Scope R_scope.

Record Uniforms := {
  uResolution : vec2;
  uTime : R;
  uSpeed : R;
  warp : R;
  thickness : R;
  colorShift : R
}.

(** [float PI = 3.14159265358979323846;] *)
Definition PI_ : R := 3.14159265358979323846.

Definition rot (a : R) : mat2 :=
  let s := sin a in
  let c := cos a in
  Mat2 c (- s) s c.

Definition easeInOut (t : R) : R :=
  let t := clamp t 0.0 1.0 in
  t * t * (3.0 - 2.0 * t).

Definition hueShift (c : vec3) (angle : R) : vec3 :=
  let ca := cos angle in
  let sa := sin angle in
  let m := Mat3 (Vec3 0.299 0.587 0.114)
                (Vec3 0.299 0.587 0.114)
                (Vec3 0.299 0.587 0.114) in
  let p := Mat3 (Vec3 0.701 (-0.587) (-0.114))
                (Vec3 (-0.299) 0.413 (-0.114))
                (Vec3 (-0.3) (-0.588) 0.886) in
  clamp3 (mulmv3 (add_m3 (add_m3 m (scale_m3 ca p))
                         (scale_m3 sa (mul_m3 p (Mat3 (splat3 0.0) (splat3 0.0)
                                                      (splat3 0.0)))))
                 c)
         0.0 1.0.

(** The hammer silhouette; [uv / scale] is the one division. *)
Definition hammerMask (uv : vec2) (t : R) : option R :=
  let travel := mod_ (t * 1.6) 8.0 in
  let zpos := - fract travel * 2.0 + 0.4 in
  let scale := mix 0.9 0.25 (clamp (zpos + 1.0) 0.0 1.0) in
  px <- fdiv (v2x uv) scale ;;
  py <- fdiv (v2y uv) scale ;;
  let p := Vec2 px py in
  let handle := smoothstep 0.02 0.01 (abs (v2x p))
                * smoothstep 0.6 0.3 (abs (v2y p - (0.3 - 0.8 * zpos))) in
  let headPos := sub2 p (Vec2 0.0 (-0.15 - 0.5 * zpos)) in
  let headRect := smoothstep (0.35 + 0.02 * scale) (0.33 + 0.02 * scale)
                    (max (abs (v2x headPos)) (abs (v2y headPos * 0.4))) in
  let mask := clamp (headRect + handle * 0.7) 0.0 1.0 in
  Some (smoothstep 0.15 0.0 (1.0 - mask)).

Definition palette (u : Uniforms) (a r t : R) : vec3 :=
  let c1 := Vec3 0.12 0.25 1.0 in
  let c2 := Vec3 1.0 0.45 0.08 in
  let wheel := 0.5 + 0.5 * sin (a * 2.0 + t * 0.8 + colorShift u) in
  let col := mix3 c1 c2 wheel in
  scale3 col (0.5 + 0.5 * smoothstep 1.6 0.2 r).

Definition ringsPattern (r z thickness : R) : R :=
  let freq := mix 18.0 6.0 (smoothstep 0.2 2.0 thickness) in
  let rim := sin (freq * r - 0.9 * z) in
  let sharp := smoothstep 0.2 0.5 (rim * 0.8 + 0.2 * thickness) in
  sharp.

(** [int(x)]: conversion of a float to an integer drops the fraction. *)
Definition int_ (x : R) : Z :=
  if Rlt_dec x 0 then (- Int_part (- x))%Z else Int_part x.

Definition cardinal (idx : Z) : vec2 :=
  if (idx =? 0)%Z then Vec2 1.0 0.0
  else if (idx =? 1)%Z then Vec2 0.0 1.0
  else if (idx =? 2)%Z then Vec2 (- 1.0) 0.0
  else Vec2 0.0 (- 1.0).

Definition main (u : Uniforms) (gl_FragCoord : vec2) : option vec3 :=
  let num := sub2 (scale2 gl_FragCoord 2.0) (uResolution u) in
  ux <- fdiv (v2x num) (v2y (uResolution u)) ;;
  uy <- fdiv (v2y num) (v2y (uResolution u)) ;;
  let uv := Vec2 ux uy in
  let z := uTime u * uSpeed u in
  let bank := 0.9 * sin (0.9 * z) in
  let bankRot := rot bank in
  let segLen := 6.0 in
  let segIdx := floor (z / segLen) in
  let segFrac := fract (z / segLen) in
  let idx := int_ (mod_ segIdx 4.0) in
  let dir := cardinal idx in
  let bowAmp := 2.4 in
  let bowPhase := easeInOut segFrac in
  let perp := Vec2 (- v2y dir) (v2x dir) in
  let center :=
    add2 (scale2 dir (segFrac * segLen * 0.75))
         (scale2 (scale2 (scale2 perp bowAmp) (sin (PI_ * bowPhase)))
                 (smoothstep 0.0 1.0 bowPhase)) in
  let center := scale2 center 0.12 in
  let q := mulmv bankRot (sub2 uv center) in
  let r := length2 q in
  let a := atan2 (v2y q) (v2x q) in
  let turnEase := easeInOut (fract (z / segLen)) in
  let baseWarp := 0.6 + 1.6 * clamp (warp u) 0.0 3.0 in
  let warpFall := smoothstep 0.0 1.6 r in
  let a := a + baseWarp * turnEase * warpFall
               * (0.8 * sin (2.2 * a + 0.6 * z) + 0.6 * sin (5.1 * a + 0.12 * z)) in
  let ca := (0.006 + 0.006 * turnEase) * (1.0 + 0.9 * clamp (warp u) 0.0 3.0) in
  let qR := add2 (mulmv bankRot (sub2 uv center)) (Vec2 ca 0.0) in
  let qG := mulmv bankRot (sub2 uv center) in
  let qB := sub2 (mulmv bankRot (sub2 uv center)) (Vec2 ca 0.0) in
  let rR := length2 qR in
  let rG := length2 qG in
  let rB := length2 qB in
  let aR := atan2 (v2y qR) (v2x qR) in
  let aG := atan2 (v2y qG) (v2x qG) in
  let aB := atan2 (v2y qB) (v2x qB) in
  let ringsR := ringsPattern rR z (thickness u) in
  let ringsG := ringsPattern rG z (thickness u) in
  let ringsB := ringsPattern rB z (thickness u) in
  let colR := scale3 (palette u aR rR z) (0.5 + 0.6 * ringsR) in
  let colG := scale3 (palette u aG rG z) (0.5 + 0.6 * ringsG) in
  let colB := scale3 (palette u aB rB z) (0.5 + 0.6 * ringsB) in
  let col := Vec3 (v3x colR) (v3y colG) (v3z colB) in
  let streak := smoothstep 0.0 0.3 (1.0 - abs (sin (18.0 * (a + 0.2 * z)))) in
  let col :=
    add3 col
         (scale3 (scale3 (scale3 (scale3 (Vec3 0.9 0.95 1.0) 1.2)
                                 (pow (max 0.0 (1.0 - r * 6.0)) 3.0))
                         streak)
                 (0.5 + 0.8 * clamp (warp u) 0.0 3.0)) in
  hammer <- hammerMask (mul2 uv (Vec2 1.0 1.6)) z ;;
  let hammerCol := mix3 (Vec3 0.15 0.1 0.05) (Vec3 1.0 0.95 0.9) 0.9 in
  let col := mix3 col (add3 hammerCol (scale3 (scale3 (Vec3 1.0 0.9 0.6) 2.2) hammer))
                  (smoothstep 0.02 0.6 hammer) in
  let v := smoothstep 1.6 0.2 r
           * (0.6 + 0.4 * (1.5 - clamp (thickness u) 0.2 2.0)) in
  let col := scale3 col v in
  let col := if Rlt_dec 0.00001 (abs (colorShift u))
             then hueShift col (colorShift u) else col in
  Some (pow3 (clamp3 col 0.0 1.0) (splat3 0.9)).

End ThorTunnel.

(** ** The plain rings-and-stripes program *)
Module Rings.
Import Glsl.
Local Open Scope R_scope.

Record Uniforms := {
  iResolution : vec2;
  iTime : R
}.

Definition main (u : Uniforms) (gl_FragCoord : vec2) : option vec3 :=
  let num := sub2 (scale2 gl_FragCoord 2.0) (iResolution u) in
  px <- fdiv (v2x num) (v2y (iResolution u)) ;;
  py <- fdiv (v2y num) (v2y (iResolution u)) ;;
  let p := Vec2 px py in
  let r := length2 p in
  let a := atan2 (v2y p) (v2x p) in
  let z := iTime u * 2.0 in
  let rings := sin (10.0 * r - z) in
  let stripes := sin (6.0 * a + z) in
  let v := rings * stripes in
  Some (Vec3 (0.5 + 0.5 * v) (0.3 + 0.3 * v) (0.8 - 0.5 * v)).

End Rings.

(** ** IEEE 754 binary32, the [float] of the host program *)
Module Binary32.
Local Open Scope Z_scope.

(** Precision 24, exponents below 128: the operations are those of the
    executable specification of the standard library, each rounding to
    nearest with ties to even. *)
Definition float : Type := spec_float.

Definition add : float -> float -> float := SFadd 24 128.
Definition sub : float -> float -> float := SFsub 24 128.
Definition mul : float -> float -> float := SFmul 24 128.
Definition div : float -> float -> float := SFdiv 24 128.
Definition ltb : float -> float -> bool := SFltb.
Definition leb : float -> float -> bool := SFleb.

(** [(float)n] for an integer [n]. *)
Definition of_int (n : Z) : float := binary_normalize 24 128 n 0 false.

(** A decimal literal with the suffix [f], such as [1.1f]: the float
    nearest to the decimal.  Numerator and denominator of the literals of
    the program are small integers, which [of_int] represents exactly. *)
Definition lit (q : Q) : float :=
  div (of_int (Qnum q)) (of_int (Zpos (Qden q))).

(** A well-formed binary32 value. *)
Definition valid (x : float) : bool := valid_binary 24 128 x.

(** [0 < x]. *)
Definition is_pos (x : float) : bool := ltb (S754_zero false) x.

(** The real number a finite float stands for (0 for the others). *)
Definition to_R (x : float) : R :=
  match x with
  | S754_finite s m e => (IZR (cond_Zopp s (Zpos m)) * powerRZ 2 e)%R
  | _ => 0%R
  end.

End Binary32.

(** ** The C++ host program (the same in every translation unit) *)
Module Host.
Import Binary32.
Local Open Scope Z_scope.

(** *** SDL events *)

(** Key codes and the window-event id, with the values of SDL2's headers. *)
Definition SDLK_ESCAPE : Z := 27.
Definition SDLK_UP : Z := 1073741906.
Definition SDLK_DOWN : Z := 1073741905.
Definition SDLK_LEFT : Z := 1073741904.
Definition SDLK_RIGHT : Z := 1073741903.
Definition SDLK_z : Z := 122.
Definition SDLK_x : Z := 120.
Definition SDLK_c : Z := 99.
Definition SDLK_v : Z := 118.
Definition SDL_WINDOWEVENT_SIZE_CHANGED : Z := 6.

(** An [SDL_Event] by its [type], with the fields the loop reads:
    [key.keysym.sym], and [window.event], [window.data1], [window.data2]. *)
Inductive SDL_Event : Type :=
| SDL_QUIT
| SDL_KEYDOWN (sym : Z)
| SDL_WINDOWEVENT (event data1 data2 : Z)
| SDL_OTHER.

(** The local variables of [main] that live across loop iterations. *)
Record Session := {
  running : bool;
  w : Z;
  h : Z;
  speed : float;
  warp : float;
  thickness : float;
  colorShift : float
}.

Definition set_running (b : bool) (s : Session) : Session :=
  {| running := b; w := w s; h := h s; speed := speed s; warp := warp s;
     thickness := thickness s; colorShift := colorShift s |}.
Definition set_size (w' h' : Z) (s : Session) : Session :=
  {| running := running s; w := w'; h := h'; speed := speed s; warp := warp s;
     thickness := thickness s; colorShift := colorShift s |}.
Definition set_speed (v : float) (s : Session) : Session :=
  {| running := running s; w := w s; h := h s; speed := v; warp := warp s;
     thickness := thickness s; colorShift := colorShift s |}.
Definition set_warp (v : float) (s : Session) : Session :=
  {| running := running s; w := w s; h := h s; speed := speed s; warp := v;
     thickness := thickness s; colorShift := colorShift s |}.
Definition set_thickness (v : float) (s : Session) : Session :=
  {| running := running s; w := w s; h := h s; speed := speed s; warp := warp s;
     thickness := v; colorShift := colorShift s |}.
Definition set_colorShift (v : float) (s : Session) : Session :=
  {| running := running s; w := w s; h := h s; speed := speed s; warp := warp s;
     thickness := thickness s; colorShift := v |}.

(** [std::max(a, b)]: [(a < b) ? b : a]. *)
Definition std_max (a b : float) : float := if ltb a b then b else a.

(** [int w = 1280, h = 720; running = true;] and the default parameters. *)
Definition initial : Session :=
  {| running := true; w := 1280; h := 720;
     speed := lit 6.0; warp := lit 1.0; thickness := lit 0.18;
     colorShift := lit 0.0 |}.

(** The nine [if]s of the [SDL_KEYDOWN] branch, in source order. *)
Definition on_keydown (sym : Z) (s : Session) : Session :=
  let s := if sym =? SDLK_ESCAPE then set_running false s else s in
  let s := if sym =? SDLK_UP then set_speed (mul (speed s) (lit 1.1)) s else s in
  let s := if sym =? SDLK_DOWN then set_speed (div (speed s) (lit 1.1)) s else s in
  let s := if sym =? SDLK_LEFT
           then set_warp (std_max (lit 0.1) (sub (warp s) (lit 0.1))) s else s in
  let s := if sym =? SDLK_RIGHT then set_warp (add (warp s) (lit 0.1)) s else s in
  let s := if sym =? SDLK_z
           then set_thickness (std_max (lit 0.01) (sub (thickness s) (lit 0.01))) s
           else s in
  let s := if sym =? SDLK_x
           then set_thickness (add (thickness s) (lit 0.01)) s else s in
  let s := if sym =? SDLK_c
           then set_colorShift (add (colorShift s) (lit 0.05)) s else s in
  let s := if sym =? SDLK_v
           then set_colorShift (sub (colorShift s) (lit 0.05)) s else s in
  s.

(** The body of [while (SDL_PollEvent(&e))]. *)
Definition handle_event (s : Session) (e : SDL_Event) : Session :=
  match e with
  | SDL_QUIT => set_running false s
  | SDL_KEYDOWN sym => on_keydown sym s
  | SDL_WINDOWEVENT event data1 data2 =>
      if event =? SDL_WINDOWEVENT_SIZE_CHANGED then set_size data1 data2 s else s
  | SDL_OTHER => s
  end.

(** Draining the event queue of one loop iteration. *)
Definition drain (s : Session) (evs : list SDL_Event) : Session :=
  fold_left handle_event evs s.

(** *** Building the program *)

Inductive GLenum : Type := GL_VERTEX_SHADER | GL_FRAGMENT_SHADER.

Inductive Stream : Type := Cout | Cerr.

(** What the platform answers to the calls of [main] before the loop.
    A status of [None] is success; [Some log] is failure with its text. *)
Record Driver := {
  sdl_init : option string;
  create_window : bool;
  create_context : bool;
  glad_load : bool;
  gl_version : string;
  shader_name : GLenum -> positive;
  compile_status : GLenum -> option string;
  program_name : positive;
  link_status : option string;
  active_uniforms : list (string * Z)
}.

Definition Log := list (Stream * string).

(** The newline every message ends with. *)
Definition nl : string := String (Ascii.ascii_of_nat 10) EmptyString.

(** [compileShader]: the shader name, or 0 after printing the info log. *)
Definition compileShader (d : Driver) (type : GLenum) : Z * Log :=
  let sh := Zpos (shader_name d type) in
  match compile_status d type with
  | Some buf =>
      (0, [(Cerr, ("Shader compile error: " ++ buf ++ nl)%string)])
  | None => (sh, [])
  end.

(** [linkProgram]: the program name, or 0 after printing the info log. *)
Definition linkProgram (d : Driver) (v f : Z) : Z * Log :=
  let p := Zpos (program_name d) in
  match link_status d with
  | Some buf =>
      (0, [(Cerr, ("Program link error: " ++ buf ++ nl)%string)])
  | None => (p, [])
  end.

(** [glGetUniformLocation]: the location of an active uniform, else -1. *)
Fixpoint lookup (name : string) (tbl : list (string * Z)) : Z :=
  match tbl with
  | [] => -1
  | (n, loc) :: rest => if String.eqb n name then loc else lookup name rest
  end.

Definition glGetUniformLocation (d : Driver) (name : string) : Z :=
  lookup name (active_uniforms d).

Record Locs := {
  locTime : Z;
  locRes : Z;
  locSpeed : Z;
  locWarp : Z;
  locThickness : Z;
  locColorShift : Z
}.

(** The six lookups of shader1-circles.cpp (and of shader3, shader5). *)
Definition uniform_locations (d : Driver) : Locs :=
  {| locTime := glGetUniformLocation d "iTime";
     locRes := glGetUniformLocation d "iResolution";
     locSpeed := glGetUniformLocation d "speed";
     locWarp := glGetUniformLocation d "warp";
     locThickness := glGetUniformLocation d "thickness";
     locColorShift := glGetUniformLocation d "colorShift" |}.

(** How [main] leaves its start-up part. *)
Inductive Started : Type :=
| Exit (code : Z)
| Ready (prog : Z) (locs : Locs).

(** [main] from its first line to the line before [while (running)]. *)
Definition startup (d : Driver) : Log * Started :=
  match sdl_init d with
  | Some err => ([(Cerr, ("SDL_Init failed: " ++ err ++ nl)%string)], Exit 1)
  | None =>
  if negb (create_window d) then ([(Cerr, ("CreateWindow failed" ++ nl)%string)], Exit 1)
  else if negb (create_context d)
  then ([(Cerr, ("CreateContext failed" ++ nl)%string)], Exit 1)
  else if negb (glad_load d)
  then ([(Cerr, ("Failed to initialize GLAD" ++ nl)%string)], Exit 1)
  else
    let log0 := [(Cout, ("OpenGL: " ++ gl_version d ++ nl)%string)] in
    let '(vs, log1) := compileShader d GL_VERTEX_SHADER in
    let '(fs, log2) := compileShader d GL_FRAGMENT_SHADER in
    if (vs =? 0) || (fs =? 0) then (log0 ++ log1 ++ log2, Exit 1)
    else
      let '(prog, log3) := linkProgram d vs fs in
      if prog =? 0 then (log0 ++ log1 ++ log2 ++ log3, Exit 1)
      else (log0 ++ log1 ++ log2 ++ log3, Ready prog (uniform_locations d))
  end.

(** *** The session loop *)

(** The values one iteration hands to [glUniform*] before [glDrawArrays]. *)
Record Frame := {
  f_time : float;
  f_width : Z;
  f_height : Z;
  f_speed : float;
  f_warp : float;
  f_thickness : float;
  f_colorShift : float
}.

Definition frame_of (s : Session) (t : float) : Frame :=
  {| f_time := t;
     f_width := w s; f_height := h s;
     f_speed := speed s; f_warp := warp s;
     f_thickness := thickness s; f_colorShift := colorShift s |}.

(** [while (running) { drain events; draw one frame }].  Each element of
    [polls] is one iteration: the events pending at its start and the
    seconds since the start that the clock gives it ([diff.count()]).  The
    list is the part of the run observed. *)
Fixpoint session_loop (s : Session) (polls : list (list SDL_Event * float))
  : list Frame :=
  match polls with
  | [] => []
  | (evs, t) :: rest =>
      if running s then
        let s' := drain s evs in
        frame_of s' t :: session_loop s' rest
      else []
  end.

(** The whole of [main]: what it prints before the loop, the frames it
    draws, and the exit code when it returns before the loop. *)
Definition main (d : Driver) (polls : list (list SDL_Event * float))
  : Log * list Frame * option Z :=
  match startup d with
  | (log, Exit code) => (log, [], Some code)
  | (log, Ready prog locs) => (log, session_loop initial polls, None)
  end.

(** *** Uniform storage of the program object *)

(** The value held at each uniform location (two floats: a [float] uniform
    uses the first).  It belongs to the program object and outlives a frame. *)
Definition UStore := Z -> float * float.

Definition store_set (st : UStore) (loc : Z) (v : float * float) : UStore :=
  fun l => if l =? loc then v else st l.

(** [glUniform1f] and [glUniform2f]: location -1 is silently ignored. *)
Definition glUniform1f (loc : Z) (v : float) (st : UStore) : UStore :=
  if loc =? -1 then st else store_set st loc (v, S754_zero false).
Definition glUniform2f (loc : Z) (v0 v1 : float) (st : UStore) : UStore :=
  if loc =? -1 then st else store_set st loc (v0, v1).

(** The six uniform writes of one iteration, in source order. *)
Definition push_uniforms (l : Locs) (f : Frame) (st : UStore) : UStore :=
  let st := glUniform1f (locTime l) (f_time f) st in
  let st := glUniform2f (locRes l) (of_int (f_width f)) (of_int (f_height f)) st in
  let st := glUniform1f (locSpeed l) (f_speed f) st in
  let st := glUniform1f (locWarp l) (f_warp f) st in
  let st := glUniform1f (locThickness l) (f_thickness f) st in
  let st := glUniform1f (locColorShift l) (f_colorShift f) st in
  st.

(** The uniforms the fragment shader of shader1-circles.cpp sees. *)
Definition circles_uniforms (l : Locs) (st : UStore) : Circles.Uniforms :=
  {| Circles.iTime := to_R (fst (st (locTime l)));
     Circles.iResolution :=
       Glsl.Vec2 (to_R (fst (st (locRes l)))) (to_R (snd (st (locRes l))));
     Circles.speed := to_R (fst (st (locSpeed l)));
     Circles.warp := to_R (fst (st (locWarp l)));
     Circles.thickness := to_R (fst (st (locThickness l)));
     Circles.colorShift := to_R (fst (st (locColorShift l))) |}.

(** The colour one fragment gets in the draw call of a frame. *)
Definition draw_fragment (l : Locs) (f : Frame) (st : UStore) (uv : Glsl.vec2)
  : option Glsl.vec3 :=
  Circles.main (circles_uniforms l (push_uniforms l f st)) uv.

(** All six locations resolved, and no two of them the same. *)
Definition resolved (l : Locs) : Prop :=
  NoDup [locTime l; locRes l; locSpeed l; locWarp l; locThickness l; locColorShift l]
  /\ Forall (fun loc => loc <> -1)
       [locTime l; locRes l; locSpeed l; locWarp l; locThickness l; locColorShift l].

Definition recognized_keys : list Z :=
  [SDLK_ESCAPE; SDLK_UP; SDLK_DOWN; SDLK_LEFT; SDLK_RIGHT;
   SDLK_z; SDLK_x; SDLK_c; SDLK_v].

(** A well-formed float that is strictly positive. *)
Definition positive_float (x : float) : Prop :=
  valid x = true /\ is_pos x = true.

(** A well-formed float that is not below the floor [c]. *)
Definition at_least (c x : float) : Prop :=
  valid x = true /\ leb c x = true.

(** What the loop keeps true of its parameters. *)
Definition params_ok (s : Session) : Prop :=
  positive_float (speed s)
  /\ at_least (lit 0.1) (warp s)
  /\ at_least (lit 0.01) (thickness s).

(** The uniforms a frame carries, as the shader of shader1-circles.cpp
    names them. *)
Definition frame_uniforms (f : Frame) : Circles.Uniforms :=
  {| Circles.iTime := to_R (f_time f);
     Circles.iResolution :=
       Glsl.Vec2 (to_R (of_int (f_width f))) (to_R (of_int (f_height f)));
     Circles.speed := to_R (f_speed f);
     Circles.warp := to_R (f_warp f);
     Circles.thickness := to_R (f_thickness f);
     Circles.colorShift := to_R (f_colorShift f) |}.

End Host.

(** ** Vocabulary of the properties *)

(** Successive values of the travel distance: each at least [step] beyond
    the one before, starting from [t0]. *)
Fixpoint advancing (step t0 : R) (ts : list R) : Prop :=
  match ts with
  | [] => True
  | t1 :: rest => (t0 + step <= t1)%R /\ advancing step t1 rest
  end.

(** No value but the last exceeds the cutoff: the loop stopped at the first
    value beyond it. *)
Fixpoint stops_at_cutoff (cut : R) (ts : list R) : Prop :=
  match ts with
  | [] => True
  | t1 :: rest =>
      match rest with
      | [] => True
      | _ :: _ => (t1 <= cut)%R /\ stops_at_cutoff cut rest
      end
  end.

(** An event other than a change of the window size. *)
Definition not_resize (e : Host.SDL_Event) : Prop :=
  match e with
  | Host.SDL_WINDOWEVENT event _ _ => event <> Host.SDL_WINDOWEVENT_SIZE_CHANGED
  | _ => True
  end.

Module Startup.
Import Host.

Definition is_some {A : Type} (o : option A) : bool :=
  match o with Some _ => true | None => false end.

(** The steps of [main] before the shader build all succeed. *)
Definition init_ok (d : Driver) : bool :=
  negb (is_some (sdl_init d)) && create_window d && create_context d && glad_load d.

Definition compile_fails (d : Driver) : bool :=
  is_some (compile_status d GL_VERTEX_SHADER)
  || is_some (compile_status d GL_FRAGMENT_SHADER).

Definition link_fails (d : Driver) : bool := is_some (link_status d).

(** One of the six lookups answers -1. *)
Definition slot_unresolved (d : Driver) : bool :=
  let l := uniform_locations d in
  existsb (Z.eqb (-1))
    [locTime l; locRes l; locSpeed l; locWarp l; locThickness l; locColorShift l].

(** A line was written to [std::cerr]. *)
Definition reports_error (log : Log) : bool :=
  existsb (fun e => match fst e with Cerr => true | Cout => false end) log.

(** [msg] is the text [compileShader] or [linkProgram] prints for a failure
    of [d], info log included. *)
Definition build_diagnostic (d : Driver) (msg : string) : Prop :=
  (exists ty buf, compile_status d ty = Some buf
                  /\ msg = ("Shader compile error: " ++ buf ++ nl)%string)
  \/ (exists buf, link_status d = Some buf
                  /\ msg = ("Program link error: " ++ buf ++ nl)%string).

(** A platform on which everything succeeds, with the uniforms the fragment
    shader of shader3-tunnel-DEV-NOT-WORKING.cpp declares. *)
Definition tunnel_dev_driver : Driver :=
  {| sdl_init := None;
     create_window := true;
     create_context := true;
     glad_load := true;
     gl_version := "3.3";
     shader_name := fun ty => match ty with
                              | GL_VERTEX_SHADER => 1%positive
                              | GL_FRAGMENT_SHADER => 2%positive
                              end;
     compile_status := fun _ => None;
     program_name := 3%positive;
     link_status := None;
     active_uniforms := [("uResolution"%string, 0%Z); ("uTime"%string, 1%Z)] |}.

(** The same platform with the uniforms of shader1-circles.cpp. *)
Definition circles_driver : Driver :=
  {| sdl_init := None;
     create_window := true;
     create_context := true;
     glad_load := true;
     gl_version := "3.3";
     shader_name := fun ty => match ty with
                              | GL_VERTEX_SHADER => 1%positive
                              | GL_FRAGMENT_SHADER => 2%positive
                              end;
     compile_status := fun _ => None;
     program_name := 3%positive;
     link_status := None;
     active_uniforms :=
       [("iTime"%string, 0%Z); ("iResolution"%string, 1%Z); ("speed"%string, 2%Z);
        ("warp"%string, 3%Z); ("thickness"%string, 4%Z); ("colorShift"%string, 5%Z)] |}.

End Startup.

(** The inputs of the end-to-end scenario: time 0, default parameters,
    resolution 1280x720, and the fragment at window position (640, 360). *)
Module Scenario.
Import Glsl.
Local Open Scope R_scope.

Definition uniforms : Circles.Uniforms :=
  {| Circles.iTime := 0;
     Circles.iResolution := Vec2 1280 720;
     Circles.speed := 6.0;
     Circles.warp := 1.0;
     Circles.thickness := 0.18;
     Circles.colorShift := 0.0 |}.

Definition uv : vec2 := vertex_uv (ndc_of_pixel 1280 720 640 360).

End Scenario.

(** Inputs on which the shaders are run below. *)
Module Inputs.
Import Glsl.
Local Open Scope R_scope.

(** shader1 with a resolution of (0, 0) and the default parameters. *)
Definition circles_zero_resolution : Circles.Uniforms :=
  {| Circles.iTime := 0;
     Circles.iResolution := Vec2 0 0;
     Circles.speed := 6.0;
     Circles.warp := 1.0;
     Circles.thickness := 0.18;
     Circles.colorShift := 0.0 |}.

(** shader5 with a resolution of (0, 0), resp. 1280x720, and the default
    parameters. *)
Definition single45_at (res : vec2) : Single45.Uniforms :=
  {| Single45.iResolution := res;
     Single45.iTime := 0;
     Single45.speed := 6.0;
     Single45.warp := 1.0;
     Single45.thickness := 0.18;
     Single45.colorShift := 0.0 |}.

(** shader3 at time 0 on a 1280x720 surface, resp. with the resolution
    of (0, 0) its uniform keeps when no write reaches it. *)
Definition tunnel_dev_720p : TunnelDev.Uniforms :=
  {| TunnelDev.uResolution := Vec2 1280 720; TunnelDev.uTime := 0 |}.
Definition tunnel_dev_unset : TunnelDev.Uniforms :=
  {| TunnelDev.uResolution := Vec2 0 0; TunnelDev.uTime := 0 |}.

(** The centre of the bottom-left pixel, as [gl_FragCoord.xy]. *)
Definition bottom_left : vec2 := Vec2 0.5 0.5.

End Inputs.

(* ================================================================== *)
(** * Properties *)
(* ================================================================== *)

(** ** Rounding in binary32 *)
Section Rounding.
Local Open Scope Z_scope.

Lemma fexp_eq (e : Z) : fexp 24 128 e = Z.max (e - 24) (-149).
Proof. reflexivity. Qed.

Lemma digits2_size (p : positive) : digits2_pos p = Pos.size p.
Proof. induction p as [p IH | p IH | ]; cbn; rewrite ?IH; reflexivity. Qed.

(** The number of binary digits of a positive integer. *)
Lemma digits2_log2 (p : positive) : Zpos (digits2_pos p) = Z.log2 (Zpos p) + 1.
Proof.
  rewrite digits2_size. destruct p as [p | p | ]; cbn; try reflexivity; lia.
Qed.

Lemma Zdigits2_log2 (m : Z) : 0 < m -> Zdigits2 m = Z.log2 m + 1.
Proof. destruct m as [ | p | p]; try lia. intros _. apply digits2_log2. Qed.

(** One step of the shifter halves the mantissa. *)
Lemma shr_1_m (mrs : shr_record) :
  0 <= shr_m mrs -> shr_m (shr_1 mrs) = Z.div2 (shr_m mrs).
Proof.
  destruct mrs as [m r s]. cbn [shr_m]. intros H.
  destruct m as [ | [p | p | ] | p]; try reflexivity. lia.
Qed.

Lemma iter_shr_m (n : positive) :
  forall mrs, 0 <= shr_m mrs ->
  shr_m (iter_pos shr_1 n mrs) = Z.shiftr (shr_m mrs) (Zpos n).
Proof.
  induction n as [n IH | n IH | ]; intros mrs H; cbn [iter_pos].
  - assert (H1 : 0 <= shr_m (shr_1 mrs)).
    { rewrite shr_1_m by exact H. rewrite Z.div2_div. apply Z.div_pos; lia. }
    assert (H2 : 0 <= shr_m (iter_pos shr_1 n (shr_1 mrs))).
    { rewrite IH by exact H1. apply Z.shiftr_nonneg. exact H1. }
    rewrite IH by exact H2. rewrite IH by exact H1. rewrite shr_1_m by exact H.
    rewrite Z.div2_spec. rewrite !Z.shiftr_shiftr by lia. f_equal. lia.
  - assert (H2 : 0 <= shr_m (iter_pos shr_1 n mrs)).
    { rewrite IH by exact H. apply Z.shiftr_nonneg. exact H. }
    rewrite IH by exact H2. rewrite IH by exact H.
    rewrite !Z.shiftr_shiftr by lia. f_equal. lia.
  - rewrite shr_1_m by exact H. rewrite Z.div2_spec. reflexivity.
Qed.

Lemma round_nearest_even_cases (m : Z) (l : location) :
  round_nearest_even m l = m \/ round_nearest_even m l = m + 1.
Proof.
  destruct l as [ | [ | | ]]; cbn; auto. destruct (Z.even m); auto.
Qed.

Lemma shr_record_of_loc_m (m : Z) (l : location) : shr_m (shr_record_of_loc m l) = m.
Proof. destruct l as [ | [ | | ]]; reflexivity. Qed.

(** Shifting a mantissa that has digits enough: the exponent becomes the
    canonical one and the mantissa loses the low bits. *)
Lemma shr_fexp_nonneg (m e : Z) (l : location) :
  0 <= m -> e <= fexp 24 128 (Zdigits2 m + e) ->
  exists mrs,
    shr_fexp 24 128 m e l = (mrs, fexp 24 128 (Zdigits2 m + e))
    /\ shr_m mrs = Z.shiftr m (fexp 24 128 (Zdigits2 m + e) - e).
Proof.
  intros Hm He. unfold shr_fexp, shr.
  destruct (fexp 24 128 (Zdigits2 m + e) - e) as [ | n | n] eqn:En.
  - eexists. split.
    + f_equal. lia.
    + rewrite shr_record_of_loc_m, Z.shiftr_0_r. reflexivity.
  - eexists. split.
    + f_equal. lia.
    + rewrite iter_shr_m by (rewrite shr_record_of_loc_m; exact Hm).
      rewrite shr_record_of_loc_m. reflexivity.
  - lia.
Qed.

(** Rounding a positive mantissa with digits enough gives a well-formed
    number of the same sign whose exponent is at least the canonical one of
    the input, or an infinity; it gives zero only below 2^-149. *)
Lemma binary_round_aux_spec (s : bool) (p : positive) (e : Z) (l : location) :
  e <= fexp 24 128 (Z.log2 (Zpos p) + 1 + e) ->
  match binary_round_aux 24 128 s (Zpos p) e l with
  | S754_zero s' => s' = s /\ Z.log2 (Zpos p) + 1 + e <= -149
  | S754_finite s' m' e' =>
      s' = s /\ bounded 24 128 m' e' = true
      /\ fexp 24 128 (Z.log2 (Zpos p) + 1 + e) <= e'
  | S754_infinity s' => s' = s
  | S754_nan => False
  end.
Proof.
  intros He. unfold binary_round_aux.
  assert (Hd : Zdigits2 (Zpos p) = Z.log2 (Zpos p) + 1) by (apply Zdigits2_log2; lia).
  destruct (shr_fexp_nonneg (Zpos p) e l ltac:(lia) ltac:(rewrite Hd; exact He))
    as (mrs1 & E1 & Hm1).
  rewrite E1. rewrite Hd in *.
  set (d := Z.log2 (Zpos p) + 1) in *.
  set (e1 := fexp 24 128 (d + e)) in *.
  assert (He1 : e1 = Z.max (d + e - 24) (-149)) by reflexivity.
  set (m1 := shr_m mrs1) in *.
  assert (Hm1pos : 0 <= m1) by (rewrite Hm1; apply Z.shiftr_nonneg; lia).
  set (m2 := round_nearest_even m1 (loc_of_shr_record mrs1)).
  assert (Hm2 : m2 = m1 \/ m2 = m1 + 1) by apply round_nearest_even_cases.
  (* the digits of the shifted mantissa *)
  assert (Hlog1 : 0 < m1 -> Z.log2 m1 + 1 + e1 = d + e).
  { intros Hpos. rewrite Hm1. rewrite Z.log2_shiftr by lia.
    assert (~ Z.log2 (Zpos p) < e1 - e).
    { intros Hlt. assert (Z.shiftr (Zpos p) (e1 - e) = 0).
      { apply Z.shiftr_eq_0; lia. }
      lia. }
    unfold d. lia. }
  assert (Hzero1 : m1 = 0 -> e1 = -149 /\ d + e <= -149).
  { intros H0. rewrite Hm1 in H0. apply Z.shiftr_eq_0_iff in H0.
    destruct H0 as [H0 | [_ H0]]; [ lia | ]. unfold d in *. lia. }
  (* the second shift, after rounding *)
  assert (Hpre2 : e1 <= fexp 24 128 (Zdigits2 m2 + e1)).
  { destruct (Z.eq_dec m2 0) as [H0 | Hn0].
    - rewrite H0. cbn [Zdigits2]. rewrite fexp_eq.
      assert (m1 = 0) by lia. destruct (Hzero1 H) as [-> _]. lia.
    - rewrite Zdigits2_log2 by lia. rewrite fexp_eq.
      destruct (Z.eq_dec m1 0) as [H10 | H1n].
      + destruct (Hzero1 H10) as [-> _]. lia.
      + specialize (Hlog1 ltac:(lia)).
        assert (Z.log2 m1 <= Z.log2 m2) by (apply Z.log2_le_mono; lia).
        lia. }
  destruct (shr_fexp_nonneg m2 e1 loc_Exact ltac:(lia) Hpre2) as (mrs2 & E2 & Hm3).
  rewrite E2.
  set (e2 := fexp 24 128 (Zdigits2 m2 + e1)) in *.
  destruct (Z.eq_dec m2 0) as [H0 | Hn0].
  - (* underflow to zero *)
    rewrite H0 in Hm3. rewrite Z.shiftr_0_l in Hm3. rewrite Hm3.
    split; [ reflexivity | ]. apply Hzero1. lia.
  - assert (Hm2pos : 0 < m2) by lia.
    assert (Hd2 : Zdigits2 m2 = Z.log2 m2 + 1) by (apply Zdigits2_log2; exact Hm2pos).
    assert (He2 : e2 = Z.max (Z.log2 m2 + 1 + e1 - 24) (-149)).
    { unfold e2. rewrite Hd2. reflexivity. }
    assert (Hlog2 : Z.log2 m2 + 1 + e1 = d + e \/ Z.log2 m2 + 1 + e1 = d + e + 1
                    \/ (m2 = 1 /\ e1 = -149)).
    { destruct (Z.eq_dec m1 0) as [H10 | H1n].
      - right. right. destruct (Hzero1 H10). split; lia.
      - specialize (Hlog1 ltac:(lia)).
        destruct Hm2 as [-> | ->]; [ left; exact Hlog1 | ].
        destruct (Z.log2_succ_or m1) as [Hs | Hs]; unfold Z.succ in Hs; lia. }
    assert (Hshift : e2 - e1 = 0 \/ (e2 - e1 = 1 /\ 1 <= Z.log2 m2)).
    { destruct Hlog2 as [H | [H | [H1 H2]]].
      - left. lia.
      - destruct (Z.eq_dec e2 e1); [ left; lia | right ].
        split; [ lia | ].
        destruct (Z.eq_dec m1 0) as [H10 | H1n].
        + destruct (Hzero1 H10). lia.
        + specialize (Hlog1 ltac:(lia)).
          assert (0 <= Z.log2 m1) by apply Z.log2_nonneg. lia.
      - left. rewrite H1 in He2. change (Z.log2 1) with 0 in He2. lia. }
    assert (Hm3pos : 0 < shr_m mrs2
                     /\ Z.log2 (shr_m mrs2) + 1 + e2 = Z.log2 m2 + 1 + e1).
    { rewrite Hm3. destruct Hshift as [H | [H Hl]]; rewrite H.
      - rewrite Z.shiftr_0_r. lia.
      - rewrite Z.log2_shiftr by lia.
        assert (0 < Z.shiftr m2 1).
        { destruct (Z.eq_dec (Z.shiftr m2 1) 0) as [Hz | Hz].
          - apply Z.shiftr_eq_0_iff in Hz. lia.
          - pose proof (Z.shiftr_nonneg m2 1). lia. }
        lia. }
    destruct Hm3pos as [Hm3pos Hcanon].
    destruct (shr_m mrs2) as [ | m3 | m3] eqn:Em3; try lia.
    destruct (Z.leb e2 (128 - 24)) eqn:Ele.
    + split; [ reflexivity | ]. split.
      * unfold bounded, canonical_mantissa. rewrite Ele, andb_true_r.
        apply Z.eqb_eq. rewrite digits2_log2, fexp_eq. lia.
      * lia.
    + reflexivity.
Qed.

Lemma iter_xO_pow (m d : positive) : Zpos (Pos.iter xO m d) = Zpos m * 2 ^ Zpos d.
Proof.
  induction d as [ | d IH] using Pos.peano_ind.
  - cbn. lia.
  - rewrite Pos.iter_succ, Pos2Z.inj_xO, IH, Pos2Z.inj_succ, Z.pow_succ_r by lia. lia.
Qed.

Lemma shl_align_fst (m : positive) (e e' : Z) :
  e' <= e -> Zpos (fst (shl_align m e e')) = Zpos m * 2 ^ (e - e').
Proof.
  intros H. unfold shl_align. destruct (e' - e) as [ | d | d] eqn:E.
  - cbn [fst]. replace (e - e') with 0 by lia. lia.
  - lia.
  - cbn [fst]. rewrite iter_xO_pow. f_equal. f_equal. lia.
Qed.

(** The same for any positive mantissa, once [binary_round] has given it
    digits enough. *)
Lemma binary_round_spec (s : bool) (m : positive) (e : Z) :
  match binary_round 24 128 s m e with
  | S754_zero s' => s' = s /\ Z.log2 (Zpos m) + 1 + e <= -149
  | S754_finite s' m' e' =>
      s' = s /\ bounded 24 128 m' e' = true
      /\ fexp 24 128 (Z.log2 (Zpos m) + 1 + e) <= e'
  | S754_infinity s' => s' = s
  | S754_nan => False
  end.
Proof.
  unfold binary_round, shl_align. rewrite digits2_log2.
  set (f := fexp 24 128 (Z.log2 (Zpos m) + 1 + e)).
  assert (Hf : f = Z.max (Z.log2 (Zpos m) + 1 + e - 24) (-149)) by reflexivity.
  destruct (f - e) as [ | d | d] eqn:E.
  - pose proof (binary_round_aux_spec s m e loc_Exact) as H. fold f in H. apply H. lia.
  - pose proof (binary_round_aux_spec s m e loc_Exact) as H. fold f in H. apply H. lia.
  - pose proof (binary_round_aux_spec s (Pos.iter xO m d) f loc_Exact) as H.
    assert (Hl : Z.log2 (Zpos (Pos.iter xO m d)) = Z.log2 (Zpos m) + Zpos d).
    { rewrite iter_xO_pow. rewrite <- Z.shiftl_mul_pow2 by lia.
      rewrite Z.log2_shiftl by lia. reflexivity. }
    rewrite Hl in H.
    replace (Z.log2 (Zpos m) + Zpos d + 1 + f) with (Z.log2 (Zpos m) + 1 + e) in H by lia.
    fold f in H. apply H. lia.
Qed.

Lemma binary_normalize_valid (m e : Z) :
  valid_binary 24 128 (binary_normalize 24 128 m e false) = true.
Proof.
  unfold binary_normalize. destruct m as [ | p | p].
  - reflexivity.
  - pose proof (binary_round_spec false p e) as H.
    destruct (binary_round 24 128 false p e) as [s | s | | s m' e']; try reflexivity.
    destruct H as (_ & Hb & _). exact Hb.
  - pose proof (binary_round_spec true p e) as H.
    destruct (binary_round 24 128 true p e) as [s | s | | s m' e']; try reflexivity.
    destruct H as (_ & Hb & _). exact Hb.
Qed.

(** What being well-formed says of mantissa and exponent. *)
Lemma bounded_facts (m : positive) (e : Z) :
  bounded 24 128 m e = true ->
  -149 <= e <= 104
  /\ Z.log2 (Zpos m) + 1 <= 24
  /\ (-149 < e -> Z.log2 (Zpos m) = 23).
Proof.
  unfold bounded, canonical_mantissa. intros H.
  apply andb_prop in H. destruct H as [Hc He].
  apply Z.eqb_eq in Hc. apply Z.leb_le in He.
  rewrite digits2_log2, fexp_eq in Hc. lia.
Qed.

End Rounding.

(** ** The parameter updates in binary32 *)
Section ParameterUpdates.
Import Binary32 Host.
Local Open Scope Z_scope.

(** The literals of the event handler, bit for bit. *)
Lemma lit_1_1 : lit 1.1 = S754_finite false 9227469 (-23).
Proof. vm_compute. reflexivity. Qed.

Lemma lit_0_1 : lit 0.1 = S754_finite false 13421773 (-27).
Proof. vm_compute. reflexivity. Qed.

Lemma lit_0_01 : lit 0.01 = S754_finite false 10737418 (-30).
Proof. vm_compute. reflexivity. Qed.

(** A positive float is a well-formed positive finite number or +infinity. *)
Lemma positive_float_shape (x : float) :
  positive_float x ->
  x = S754_infinity false
  \/ exists m e, x = S754_finite false m e /\ bounded 24 128 m e = true.
Proof.
  unfold positive_float, valid, is_pos, ltb, SFltb.
  destruct x as [s | s | | s m e]; cbn.
  - intros [_ H]. discriminate H.
  - destruct s; [ intros [_ H]; discriminate H | auto ].
  - intros [_ H]. discriminate H.
  - destruct s; [ intros [_ H]; discriminate H | ]. intros [Hb _]. right. eauto.
Qed.

Lemma rounded_positive (r : spec_float) :
  match r with
  | S754_zero s' => False
  | S754_finite s' m' e' => s' = false /\ bounded 24 128 m' e' = true
  | S754_infinity s' => s' = false
  | S754_nan => False
  end ->
  positive_float r.
Proof.
  unfold positive_float, valid, is_pos, ltb, SFltb.
  destruct r as [s | s | | s m e]; cbn.
  - intros [].
  - intros ->. split; reflexivity.
  - intros [].
  - intros (-> & Hb). split; [ exact Hb | reflexivity ].
Qed.

(** [speed *= 1.1f] keeps a positive speed positive: the product cannot
    fall below the smallest float. *)
Lemma mul_1_1_positive (x : float) :
  positive_float x -> positive_float (mul x (lit 1.1)).
Proof.
  intros Hp. rewrite lit_1_1.
  destruct (positive_float_shape x Hp) as [-> | (m & e & -> & Hb)].
  - split; reflexivity.
  - destruct (bounded_facts m e Hb) as (He & Hd & Hn).
    unfold mul, SFmul. cbn [xorb].
    assert (Hlog : Z.log2 (Zpos m) + 23 <= Z.log2 (Zpos (m * 9227469))).
    { rewrite Pos2Z.inj_mul.
      pose proof (Z.log2_mul_below (Zpos m) 9227469 ltac:(lia) ltac:(lia)) as H.
      change (Z.log2 9227469) with 23 in H. exact H. }
    pose proof (Z.log2_nonneg (Zpos m)) as Hnn.
    pose proof (binary_round_aux_spec false (m * 9227469) (e + -23) loc_Exact) as H.
    rewrite fexp_eq in H. specialize (H ltac:(lia)).
    apply rounded_positive.
    destruct (binary_round_aux 24 128 false (Zpos (m * 9227469)) (e + -23) loc_Exact)
      as [s | s | | s m' e']; try exact H.
    + destruct H as [_ Hz]. lia.
    + destruct H as (Hs & Hb' & _). split; assumption.
Qed.

(** [speed /= 1.1f] keeps a positive speed positive: the quotient of the
    smallest float rounds back up to it. *)
Lemma div_1_1_positive (x : float) :
  positive_float x -> positive_float (div x (lit 1.1)).
Proof.
  intros Hp. rewrite lit_1_1.
  destruct (positive_float_shape x Hp) as [-> | (m & e & -> & Hb)].
  - split; reflexivity.
  - destruct (bounded_facts m e Hb) as (He & Hd & Hn).
    pose proof (Z.log2_nonneg (Zpos m)) as Hnn.
    destruct (Z.eq_dec e (-149)) as [Hsub | Hnorm].
    + (* subnormal range *)
      subst e. destruct (Pos.eq_dec m 1) as [-> | Hm1].
      * split; vm_compute; reflexivity.
      * unfold div, SFdiv, SFdiv_core_binary. cbn [xorb].
        rewrite Zdigits2_log2 by lia. change (Zdigits2 9227469) with 24.
        rewrite fexp_eq.
        replace (Z.min (Z.max (Z.log2 (Zpos m) + 1 + -149 - (24 + -23) - 24) (-149))
                       (-149 - -23)) with (-149) by lia.
        change (-149 - -23 - -149) with 23.
        destruct (Z.div_eucl (Z.shiftl (Zpos m) 23) 9227469) as [q r] eqn:E.
        assert (Hq : q = Z.shiftl (Zpos m) 23 / 9227469)
          by (unfold Z.div; rewrite E; reflexivity).
        assert (Hq1 : 1 <= q).
        { rewrite Hq, Z.shiftl_mul_pow2 by lia.
          apply Z.div_le_lower_bound; lia. }
        destruct q as [ | qp | qp]; try lia.
        pose proof (Z.log2_nonneg (Zpos qp)) as Hqn.
        pose proof (binary_round_aux_spec false qp (-149) (new_location 9227469 r)) as H.
        rewrite fexp_eq in H. specialize (H ltac:(lia)).
        apply rounded_positive.
        destruct (binary_round_aux 24 128 false (Zpos qp) (-149) (new_location 9227469 r))
          as [s | s | | s m' e']; try exact H.
        -- destruct H as [_ Hz]. lia.
        -- destruct H as (Hs & Hb' & _). split; assumption.
    + (* normal range *)
      specialize (Hn ltac:(lia)).
      unfold div, SFdiv, SFdiv_core_binary. cbn [xorb].
      rewrite Zdigits2_log2 by lia. change (Zdigits2 9227469) with 24.
      rewrite fexp_eq, Hn.
      replace (Z.min (Z.max (23 + 1 + e - (24 + -23) - 24) (-149)) (e - -23))
        with (e - 1) by lia.
      replace (e - -23 - (e - 1)) with 24 by lia.
      destruct (Z.div_eucl (Z.shiftl (Zpos m) 24) 9227469) as [q r] eqn:E.
      assert (Hq : q = Z.shiftl (Zpos m) 24 / 9227469)
        by (unfold Z.div; rewrite E; reflexivity).
      assert (Hm : 2 ^ 23 <= Zpos m) by (apply Z.log2_le_pow2; lia).
      assert (Hq1 : 2 ^ 23 <= q).
      { rewrite Hq, Z.shiftl_mul_pow2 by lia.
        apply Z.div_le_lower_bound; lia. }
      destruct q as [ | qp | qp]; try lia.
      assert (Hql : 23 <= Z.log2 (Zpos qp)) by (apply Z.log2_le_pow2; lia).
      pose proof (binary_round_aux_spec false qp (e - 1) (new_location 9227469 r)) as H.
      rewrite fexp_eq in H. specialize (H ltac:(lia)).
      apply rounded_positive.
      destruct (binary_round_aux 24 128 false (Zpos qp) (e - 1) (new_location 9227469 r))
        as [s | s | | s m' e']; try exact H.
      * destruct H as [_ Hz]. lia.
      * destruct H as (Hs & Hb' & _). split; assumption.
Qed.

Lemma ltb_leb (a b : float) : ltb a b = true -> leb a b = true.
Proof.
  unfold ltb, leb, SFltb, SFleb. destruct (SFcompare a b) as [[ | | ] | ]; congruence.
Qed.

Section Floor.
(** A floor constant: a positive normal number [mc * 2^ec]. *)
Variables (mc : positive) (ec : Z).
Hypothesis Hmc : Z.log2 (Zpos mc) = 23.
Hypothesis Hec : -149 <= ec <= 103.

Let c : float := S754_finite false mc ec.

Lemma floor_at_least : at_least c c.
Proof.
  split.
  - unfold valid, c, valid_binary, bounded, canonical_mantissa.
    rewrite digits2_log2, Hmc, fexp_eq.
    apply andb_true_intro. split; [ apply Z.eqb_eq | apply Z.leb_le ]; lia.
  - unfold leb, SFleb, SFcompare, c. rewrite Z.compare_refl.
    change (Pos.compare_cont Eq mc mc) with (Pos.compare mc mc).
    rewrite Pos.compare_refl. reflexivity.
Qed.

Lemma at_least_shape (x : float) :
  at_least c x ->
  x = S754_infinity false
  \/ exists m e, x = S754_finite false m e /\ bounded 24 128 m e = true
                 /\ (ec < e \/ (ec = e /\ (mc <= m)%positive)).
Proof.
  unfold at_least, valid, leb, SFleb, SFcompare, c.
  destruct x as [s | s | | s m e]; cbn.
  - destruct s; intros [_ H]; discriminate H.
  - destruct s; [ intros [_ H]; discriminate H | auto ].
  - intros [_ H]. discriminate H.
  - destruct s; [ intros [_ H]; discriminate H | ]. intros [Hb Hc]. right.
    exists m, e. split; [ reflexivity | ]. split; [ exact Hb | ].
    destruct (Z.compare_spec ec e) as [Heq | Hlt | Hgt].
    + right. split; [ exact Heq | ].
      change (Pos.compare_cont Eq mc m) with (Pos.compare mc m) in Hc.
      destruct (Pos.compare_spec mc m); try discriminate; lia.
    + left. exact Hlt.
    + discriminate.
Qed.

(** Adding the floor to a value at or above it: the sum is at least
    twice the floor, so its exponent is beyond the floor's. *)
Lemma add_floor (x : float) : at_least c x -> at_least c (add x c).
Proof.
  intros Hx.
  destruct (at_least_shape x Hx) as [-> | (m & e & -> & Hb & Hord)].
  - split; reflexivity.
  - destruct (bounded_facts m e Hb) as (He & Hd & Hn).
    unfold at_least, valid, add, c, SFadd. cbn [cond_Zopp].
    replace (Z.min e ec) with ec by lia.
    split; [ apply binary_normalize_valid | ].
    assert (Ha : Zpos (fst (shl_align m e ec)) = Zpos m * 2 ^ (e - ec))
      by (apply shl_align_fst; lia).
    assert (Hb' : Zpos (fst (shl_align mc ec ec)) = Zpos mc)
      by (rewrite shl_align_fst by lia; rewrite Z.sub_diag; lia).
    set (a := fst (shl_align m e ec)) in *.
    set (b := fst (shl_align mc ec ec)) in *.
    change (Zpos a + Zpos b) with (Zpos (a + b)).
    cbn [binary_normalize].
    assert (Hmc' : 2 ^ 23 <= Zpos mc) by (apply Z.log2_le_pow2; lia).
    assert (Hsum : 2 ^ 24 <= Zpos (a + b)).
    { rewrite Pos2Z.inj_add, Ha, Hb'.
      destruct Hord as [Hlt | [Heq Hm]].
      - assert (Hm : 2 ^ 23 <= Zpos m) by (apply Z.log2_le_pow2; lia).
        assert (2 ^ 1 <= 2 ^ (e - ec)) by (apply Z.pow_le_mono_r; lia).
        nia.
      - subst e. rewrite Z.sub_diag. lia. }
    assert (Hlog : 24 <= Z.log2 (Zpos (a + b))) by (apply Z.log2_le_pow2; lia).
    pose proof (binary_round_spec false (a + b) ec) as H.
    rewrite fexp_eq in H.
    destruct (binary_round 24 128 false (a + b) ec) as [s | s | | s m' e'].
    + destruct H as [_ H]. lia.
    + subst s. reflexivity.
    + destruct H.
    + destruct H as (-> & _ & He').
      unfold leb, SFleb, SFcompare.
      destruct (Z.compare_spec ec e'); try reflexivity; lia.
Qed.

Lemma sub_valid (x : float) : valid x = true -> valid (sub x c) = true.
Proof.
  intros Hv. unfold valid, sub, c, SFsub.
  destruct x as [s | s | | s m e]; try reflexivity.
  - cbn. apply floor_at_least.
  - apply binary_normalize_valid.
Qed.

(** [std::max(c, x - c)] is at least [c], wherever the difference falls. *)
Lemma decrement_floor (x : float) :
  at_least c x -> at_least c (std_max c (sub x c)).
Proof.
  intros [Hv _]. unfold std_max. destruct (ltb c (sub x c)) eqn:E.
  - split; [ apply sub_valid, Hv | apply ltb_leb, E ].
  - apply floor_at_least.
Qed.
End Floor.

Lemma warp_up_ok (x : float) :
  at_least (lit 0.1) x -> at_least (lit 0.1) (add x (lit 0.1)).
Proof. rewrite lit_0_1. apply add_floor; [ reflexivity | lia ]. Qed.

Lemma warp_down_ok (x : float) :
  at_least (lit 0.1) x -> at_least (lit 0.1) (std_max (lit 0.1) (sub x (lit 0.1))).
Proof. rewrite lit_0_1. apply decrement_floor; [ reflexivity | lia ]. Qed.

Lemma thickness_up_ok (x : float) :
  at_least (lit 0.01) x -> at_least (lit 0.01) (add x (lit 0.01)).
Proof. rewrite lit_0_01. apply add_floor; [ reflexivity | lia ]. Qed.

Lemma thickness_down_ok (x : float) :
  at_least (lit 0.01) x
  -> at_least (lit 0.01) (std_max (lit 0.01) (sub x (lit 0.01))).
Proof. rewrite lit_0_01. apply decrement_floor; [ reflexivity | lia ]. Qed.

End ParameterUpdates.

(** ** The session loop *)
Section SessionLoop.
Import Binary32 Host.

Local Ltac split_keys sym :=
  repeat match goal with
         | |- context [ (sym =? ?k)%Z ] => destruct (sym =? k)%Z
         end.

Lemma initial_params_ok : params_ok initial.
Proof.
  unfold params_ok, positive_float, at_least, initial. cbn [speed warp thickness].
  repeat split; vm_compute; reflexivity.
Qed.

(** An invariant passes through one [let] of the key handler. *)
Lemma let_params_ok (v : Session) (k : Session -> Session) :
  params_ok v -> (forall x, params_ok x -> params_ok (k x)) ->
  params_ok (let x := v in k x).
Proof. intros Hv Hk. cbv zeta. apply Hk, Hv. Qed.

Local Ltac updated_field :=
  match goal with
  | |- positive_float (mul _ _) => apply mul_1_1_positive
  | |- positive_float (div _ _) => apply div_1_1_positive
  | |- at_least (lit 0.1) (add _ _) => apply warp_up_ok
  | |- at_least (lit 0.1) (std_max _ _) => apply warp_down_ok
  | |- at_least (lit 0.01) (add _ _) => apply thickness_up_ok
  | |- at_least (lit 0.01) (std_max _ _) => apply thickness_down_ok
  | |- _ => idtac
  end; assumption.

Lemma on_keydown_params_ok (sym : Z) (s : Session) :
  params_ok s -> params_ok (on_keydown sym s).
Proof.
  intros Hs. cbv beta delta [on_keydown].
  repeat (lazymatch goal with
          | |- params_ok (let x := ?v in @?k x) => apply (let_params_ok v k)
          end;
          [ destruct (_ =? _)%Z; [ | exact Hs ];
            destruct Hs as (H1 & H2 & H3);
            unfold params_ok;
            cbn [speed warp thickness set_running set_speed set_warp
                 set_thickness set_colorShift];
            (split; [ | split ]); updated_field
          | clear s Hs; intros s Hs ]).
  exact Hs.
Qed.

Lemma handle_event_params_ok (s : Session) (e : SDL_Event) :
  params_ok s -> params_ok (handle_event s e).
Proof.
  intros H. destruct e as [ | sym | event data1 data2 | ]; simpl.
  - exact H.
  - apply on_keydown_params_ok, H.
  - destruct (event =? SDL_WINDOWEVENT_SIZE_CHANGED)%Z; exact H.
  - exact H.
Qed.

Lemma drain_params_ok (evs : list SDL_Event) :
  forall s, params_ok s -> params_ok (drain s evs).
Proof.
  unfold drain. induction evs as [ | e evs IH]; intros s H; simpl.
  - exact H.
  - apply IH, handle_event_params_ok, H.
Qed.

Lemma session_loop_params_ok (polls : list (list SDL_Event * float)) :
  forall s, params_ok s ->
  Forall (fun f => positive_float (f_speed f)
                   /\ at_least (lit 0.1) (f_warp f)
                   /\ at_least (lit 0.01) (f_thickness f))
         (session_loop s polls).
Proof.
  induction polls as [ | [evs now] rest IH]; intros s H; simpl.
  - constructor.
  - destruct (running s); [ | constructor ].
    assert (H' := drain_params_ok evs s H).
    constructor; [ exact H' | apply IH, H' ].
Qed.

(** C6.  From the defaults, after any finite sequence of events the stored
    warp is not below [0.1f] and the stored thickness not below [0.01f], in
    binary32 arithmetic; so are the values every drawn frame receives. *)
Theorem clamps_hold_after_any_events :
  (forall evs : list SDL_Event,
      leb (lit 0.1) (warp (drain initial evs)) = true
      /\ leb (lit 0.01) (thickness (drain initial evs)) = true)
  /\ (forall polls : list (list SDL_Event * float),
         Forall (fun f => leb (lit 0.1) (f_warp f) = true
                          /\ leb (lit 0.01) (f_thickness f) = true)
                (session_loop initial polls)).
Proof.
  split.
  - intros evs.
    destruct (drain_params_ok evs initial initial_params_ok) as (_ & Hw & Ht).
    split; [ apply Hw | apply Ht ].
  - intros polls.
    eapply Forall_impl; [ | apply session_loop_params_ok, initial_params_ok ].
    simpl. intros f (_ & Hw & Ht). split; [ apply Hw | apply Ht ].
Qed.

(** C7.  From the default speed [6.0f], after any finite sequence of events
    the stored speed is strictly positive, in binary32 arithmetic: products
    may reach +infinity, quotients stop at 5 * 2^-149, none reaches zero.
    So is the speed every drawn frame receives. *)
Theorem speed_stays_positive :
  (forall evs : list SDL_Event, is_pos (speed (drain initial evs)) = true)
  /\ (forall polls : list (list SDL_Event * float),
         Forall (fun f => is_pos (f_speed f) = true) (session_loop initial polls)).
Proof.
  split.
  - intros evs.
    destruct (drain_params_ok evs initial initial_params_ok) as (Hs & _).
    apply Hs.
  - intros polls.
    eapply Forall_impl; [ | apply session_loop_params_ok, initial_params_ok ].
    simpl. intros f (Hs & _). apply Hs.
Qed.

(** Only the two speed keys touch the speed. *)
Lemma speed_frame (s : Session) (e : SDL_Event) :
  e <> SDL_KEYDOWN SDLK_UP -> e <> SDL_KEYDOWN SDLK_DOWN ->
  speed (handle_event s e) = speed s.
Proof.
  intros Hup Hdown. destruct e as [ | sym | event data1 data2 | ]; simpl; try reflexivity.
  - unfold on_keydown.
    destruct (Z.eqb_spec sym SDLK_UP) as [-> | _]; [ congruence | ].
    destruct (Z.eqb_spec sym SDLK_DOWN) as [-> | _]; [ congruence | ].
    split_keys sym; reflexivity.
  - destruct (event =? SDL_WINDOWEVENT_SIZE_CHANGED)%Z; reflexivity.
Qed.

(** Ten presses of Left bring the warp from 1.0 to its floor, and 1100
    presses of Down bring the speed to the float it cannot leave downwards. *)
Example ten_lefts :
  warp (drain initial (repeat (SDL_KEYDOWN SDLK_LEFT) 10)) = lit 0.1.
Proof. vm_compute. reflexivity. Qed.

Example many_downs :
  speed (drain initial (repeat (SDL_KEYDOWN SDLK_DOWN) 1100))
  = S754_finite false 5 (-149).
Proof. vm_compute. reflexivity. Qed.

(** C10.  A key-down event whose key is none of the nine recognised keys
    leaves the whole session state as it was. *)
Theorem unrecognized_key_changes_nothing (s : Session) (sym : Z) :
  ~ In sym recognized_keys -> handle_event s (SDL_KEYDOWN sym) = s.
Proof.
  intros H. simpl. unfold on_keydown.
  unfold recognized_keys in H. simpl in H.
  repeat match goal with
         | |- context [ (sym =? ?k)%Z ] =>
             destruct (Z.eqb_spec sym k) as [-> | _];
             [ exfalso; apply H; tauto | ]
         end.
  reflexivity.
Qed.

Lemma unrecognized_key_changes_nothing_witness :
  ~ In 97%Z recognized_keys
  /\ handle_event initial (SDL_KEYDOWN 97) = initial.
Proof.
  assert (H : ~ In 97%Z recognized_keys).
  { unfold recognized_keys. simpl. intros H.
    repeat (destruct H as [H | H]; [ discriminate H | ]). exact H. }
  split; [ exact H | ].
  exact (unrecognized_key_changes_nothing initial 97 H).
Defined.

End SessionLoop.

(** ** Start-up *)
Section StartUp.
Import Host Startup.

Lemma startup_exit_draws_nothing (d : Driver) (polls : list (list SDL_Event * Binary32.float)) :
  forall log code, startup d = (log, Exit code) ->
  main d polls = (log, [], Some code).
Proof. intros log code H. unfold main. rewrite H. reflexivity. Qed.

Lemma is_some_true {A : Type} (o : option A) :
  is_some o = true -> exists a, o = Some a.
Proof. destruct o as [a | ]; [ intros _; exists a; reflexivity | discriminate ]. Qed.

Lemma init_ok_fields (d : Driver) :
  init_ok d = true ->
  sdl_init d = None /\ create_window d = true
  /\ create_context d = true /\ glad_load d = true.
Proof.
  unfold init_ok. intros H.
  apply andb_prop in H. destruct H as [H Hg].
  apply andb_prop in H. destruct H as [H Hc].
  apply andb_prop in H. destruct H as [Hs Hw].
  destruct (sdl_init d); [ discriminate Hs | ]. auto.
Qed.

(** C3, as the code has it.  When the steps before the build succeed, a
    compile failure or a link failure prints its diagnostic, info log
    included, to [std::cerr]; [main] returns 1 and draws no frame. *)
Theorem build_failure_reported_and_fatal
  (d : Driver) (polls : list (list SDL_Event * Binary32.float)) :
  init_ok d = true ->
  compile_fails d || link_fails d = true ->
  exists log msg,
    main d polls = (log, [], Some 1%Z)
    /\ In (Cerr, msg) log
    /\ build_diagnostic d msg.
Proof.
  intros Hinit Hfail.
  destruct (init_ok_fields d Hinit) as (Hs & Hw & Hc & Hg).
  unfold main, startup, compileShader, linkProgram.
  rewrite Hs, Hw, Hc, Hg. simpl.
  unfold compile_fails, link_fails in Hfail.
  destruct (compile_status d GL_VERTEX_SHADER) as [bv | ] eqn:Ev.
  - (* the vertex shader does not compile *)
    destruct (compile_status d GL_FRAGMENT_SHADER) as [bf | ] eqn:Ef; simpl;
      eexists; exists ("Shader compile error: " ++ bv ++ nl)%string;
      (split; [ reflexivity | ]);
      (split; [ simpl; tauto | ]);
      left; exists GL_VERTEX_SHADER, bv; auto.
  - destruct (compile_status d GL_FRAGMENT_SHADER) as [bf | ] eqn:Ef; simpl.
    + (* the fragment shader does not compile *)
      eexists; exists ("Shader compile error: " ++ bf ++ nl)%string.
      split; [ reflexivity | ].
      split; [ simpl; tauto | ].
      left; exists GL_FRAGMENT_SHADER, bf; auto.
    + (* both compile: the link fails *)
      simpl in Hfail.
      destruct (is_some_true _ Hfail) as [bl El]. rewrite El. simpl.
      eexists; exists ("Program link error: " ++ bl ++ nl)%string.
      split; [ reflexivity | ].
      split; [ simpl; tauto | ].
      right; exists bl; auto.
Qed.

Lemma build_failure_reported_and_fatal_witness :
  exists log msg,
    main
      {| sdl_init := None; create_window := true; create_context := true;
         glad_load := true; gl_version := "3.3";
         shader_name := fun _ => 1%positive;
         compile_status := fun ty =>
           match ty with
           | GL_VERTEX_SHADER => None
           | GL_FRAGMENT_SHADER => Some "0:12: syntax error"%string
           end;
         program_name := 3%positive; link_status := None;
         active_uniforms := [] |}
      [([SDL_QUIT], Binary32.lit 1.0)]
    = (log, [], Some 1%Z)
    /\ In (Cerr, msg) log
    /\ msg = ("Shader compile error: 0:12: syntax error" ++ nl)%string.
Proof.
  destruct (build_failure_reported_and_fatal
    {| sdl_init := None; create_window := true; create_context := true;
       glad_load := true; gl_version := "3.3";
       shader_name := fun _ => 1%positive;
       compile_status := fun ty =>
         match ty with
         | GL_VERTEX_SHADER => None
         | GL_FRAGMENT_SHADER => Some "0:12: syntax error"%string
         end;
       program_name := 3%positive; link_status := None;
       active_uniforms := [] |}
    [([SDL_QUIT], Binary32.lit 1.0)] eq_refl eq_refl) as (log & msg & Hm & Hin & _).
  exists log, msg. split; [ exact Hm | ]. split; [ exact Hin | ].
  injection Hm as Hlog. subst log. simpl in Hin.
  destruct Hin as [Hin | [Hin | []]]; [ discriminate Hin | ].
  injection Hin as Hin. symmetry. exact Hin.
Defined.

(** C3 fails as stated: with the uniforms of shader3 none of the six
    lookups succeeds, yet nothing is written to [std::cerr] and the loop
    draws its frame. *)
Lemma unresolved_slot_not_fatal :
  init_ok tunnel_dev_driver = true
  /\ slot_unresolved tunnel_dev_driver = true
  /\ exists log frames,
       main tunnel_dev_driver [([], Binary32.lit 1.0)] = (log, frames, None)
       /\ reports_error log = false
       /\ frames <> [].
Proof.
  split; [ reflexivity | ]. split; [ reflexivity | ].
  eexists. eexists. split; [ reflexivity | ].
  split; [ reflexivity | discriminate ].
Qed.

End StartUp.

(** ** Uniform storage and the draw call *)
Section DrawCall.
Import Host.

Lemma store_set_same (st : UStore) (loc : Z) (v : Binary32.float * Binary32.float) :
  store_set st loc v loc = v.
Proof. unfold store_set. rewrite Z.eqb_refl. reflexivity. Qed.

Lemma store_set_other (st : UStore) (loc l : Z) (v : Binary32.float * Binary32.float) :
  l <> loc -> store_set st loc v l = st l.
Proof.
  intros H. unfold store_set.
  destruct (Z.eqb_spec l loc); [ contradiction | reflexivity ].
Qed.

Lemma glUniform1f_set (loc : Z) (v : Binary32.float) (st : UStore) :
  loc <> (-1)%Z -> glUniform1f loc v st = store_set st loc (v, S754_zero false).
Proof.
  intros H. unfold glUniform1f.
  destruct (Z.eqb_spec loc (-1)); [ contradiction | reflexivity ].
Qed.

Lemma glUniform2f_set (loc : Z) (v0 v1 : Binary32.float) (st : UStore) :
  loc <> (-1)%Z -> glUniform2f loc v0 v1 st = store_set st loc (v0, v1).
Proof.
  intros H. unfold glUniform2f.
  destruct (Z.eqb_spec loc (-1)); [ contradiction | reflexivity ].
Qed.

Lemma push_uniforms_read (l : Locs) (f : Frame) (st : UStore) :
  resolved l ->
  circles_uniforms l (push_uniforms l f st) = frame_uniforms f.
Proof.
  intros [Hnd Hall].
  repeat match goal with
         | H : NoDup (_ :: _) |- _ =>
             apply NoDup_cons_iff in H; simpl in H; destruct H as [? H]
         end.
  repeat match goal with
         | H : Forall _ (_ :: _) |- _ =>
             apply Forall_cons_iff in H; destruct H as [? H]
         end.
  unfold circles_uniforms, frame_uniforms, push_uniforms.
  rewrite !glUniform1f_set, glUniform2f_set by assumption.
  repeat (rewrite ?store_set_same;
          rewrite ?store_set_other by (intros E; rewrite ?E in *; tauto)).
  reflexivity.
Qed.

(** C4.  With the six uniforms resolved, the colour of a fragment is a
    function of its position and of the time, resolution and parameters of
    its frame alone: whatever the program object held before (earlier frames,
    other sessions), equal inputs give equal colours. *)
Theorem evaluate_depends_on_inputs_only
  (l : Locs) (f : Frame) (st1 st2 : UStore) (uv : Glsl.vec2) :
  resolved l ->
  draw_fragment l f st1 uv = draw_fragment l f st2 uv
  /\ draw_fragment l f st1 uv = Circles.main (frame_uniforms f) uv.
Proof.
  intros H. unfold draw_fragment.
  rewrite !(push_uniforms_read l f _ H). split; reflexivity.
Qed.

Lemma circles_driver_resolved : resolved (uniform_locations Startup.circles_driver).
Proof.
  split.
  - repeat (apply NoDup_cons;
            [ cbn; intros H;
              repeat (destruct H as [H | H]; [ discriminate H | ]); exact H | ]).
    apply NoDup_nil.
  - repeat (apply Forall_cons; [ cbn; discriminate | ]). apply Forall_nil.
Defined.

Lemma evaluate_depends_on_inputs_only_witness :
  resolved (uniform_locations Startup.circles_driver)
  /\ draw_fragment (uniform_locations Startup.circles_driver)
       (frame_of initial (Binary32.lit 1.0))
       (fun _ => (Binary32.lit 0.0, Binary32.lit 0.0)) (Glsl.Vec2 0.5 0.5)
     = draw_fragment (uniform_locations Startup.circles_driver)
         (frame_of initial (Binary32.lit 1.0))
         (fun _ => (Binary32.lit 7.0, Binary32.lit 7.0)) (Glsl.Vec2 0.5 0.5).
Proof.
  split; [ exact circles_driver_resolved | ].
  exact (proj1 (evaluate_depends_on_inputs_only
                  (uniform_locations Startup.circles_driver)
                  (frame_of initial (Binary32.lit 1.0))
                  (fun _ => (Binary32.lit 0.0, Binary32.lit 0.0)) (fun _ => (Binary32.lit 7.0, Binary32.lit 7.0)) (Glsl.Vec2 0.5 0.5)
                  circles_driver_resolved)).
Defined.

End DrawCall.

(** ** Lists *)

Lemma last_nonempty_default {A : Type} (x : A) (l : list A) (d d' : A) :
  last (x :: l) d = last (x :: l) d'.
Proof.
  revert x. induction l as [ | y l IH]; intros x.
  - reflexivity.
  - change (last (y :: l) d = last (y :: l) d'). apply IH.
Qed.

(** ** The GLSL built-ins *)
Section Builtins.
Import Glsl.
Local Open Scope R_scope.

Lemma max_lower_l (x y : R) : x <= max x y.
Proof. unfold max. destruct (Rlt_dec x y); lra. Qed.

Lemma max_lower_r (x y : R) : y <= max x y.
Proof. unfold max. destruct (Rlt_dec x y); lra. Qed.

Lemma max_upper (x y b : R) : x <= b -> y <= b -> max x y <= b.
Proof. unfold max. destruct (Rlt_dec x y); lra. Qed.

Lemma clamp_range (x lo hi : R) : lo <= hi -> lo <= clamp x lo hi <= hi.
Proof.
  intros H. unfold clamp, min, max.
  destruct (Rlt_dec x lo); destruct (Rlt_dec hi _); lra.
Qed.

Lemma clamp_id (x lo hi : R) : lo <= x <= hi -> clamp x lo hi = x.
Proof.
  intros H. unfold clamp, min, max.
  destruct (Rlt_dec x lo); destruct (Rlt_dec hi _); lra.
Qed.

Lemma smoothstep_range (e0 e1 x : R) : 0 <= smoothstep e0 e1 x <= 1.
Proof.
  unfold smoothstep.
  pose proof (clamp_range ((x - e0) / (e1 - e0)) 0 1 ltac:(lra)) as H.
  set (c := clamp ((x - e0) / (e1 - e0)) 0 1) in *. clearbody c.
  assert (Hlo : 0 <= c * c * (3 - 2 * c)) by (apply Rmult_le_pos; nra).
  assert (Hhi : 0 <= (1 - c) * (1 - c) * (1 + 2 * c)) by (apply Rmult_le_pos; nra).
  split; [ exact Hlo | nra ].
Qed.

Lemma pow_range (x y : R) : 0 <= x <= 1 -> 0 < y -> 0 <= pow x y <= 1.
Proof.
  intros [H0 H1] Hy. unfold pow.
  destruct (Rlt_dec 0 x) as [Hpos | _]; [ | lra ].
  unfold Rpower. split.
  - left. apply exp_pos.
  - rewrite <- exp_0.
    destruct H1 as [H1 | H1].
    + left. apply exp_increasing.
      assert (ln x < 0) by (rewrite <- ln_1; apply ln_increasing; lra).
      nra.
    + subst x. rewrite ln_1, Rmult_0_r. lra.
Qed.

Lemma fract_range (x : R) : 0 <= fract x < 1.
Proof.
  unfold fract, floor. destruct (base_fp x) as [H0 H1].
  unfold frac_part in *. lra.
Qed.

Lemma abs_nonneg (x : R) : 0 <= abs x.
Proof. apply Rabs_pos. Qed.

Lemma half_sine_range (x : R) : 0 <= 0.5 + 0.5 * sin x <= 1.
Proof. pose proof (SIN_bound x). lra. Qed.

Lemma fdiv_some (a b : R) : b <> 0 -> fdiv a b = Some (a / b).
Proof. intros H. unfold fdiv. destruct (Req_EM_T b 0); [ contradiction | reflexivity ]. Qed.

Lemma fdiv_zero (a : R) : fdiv a 0 = None.
Proof. unfold fdiv. destruct (Req_EM_T 0 0); [ reflexivity | lra ]. Qed.

Lemma gamma_in_unit (c : vec3) (g : R) :
  0 < g -> in_unit (pow3 (clamp3 c 0.0 1.0) (splat3 g)).
Proof.
  intros Hg. unfold in_unit, pow3, clamp3, splat3. simpl.
  pose proof (clamp_range (v3x c) 0.0 1.0 ltac:(lra)).
  pose proof (clamp_range (v3y c) 0.0 1.0 ltac:(lra)).
  pose proof (clamp_range (v3z c) 0.0 1.0 ltac:(lra)).
  repeat split; apply pow_range; try exact Hg; lra.
Qed.

(** exp (-3/5) < 3/5, from 1 + x < exp x at x = 1/5. *)
Lemma exp_m06 : exp (- 0.6) < 0.6.
Proof.
  assert (H : 1.2 < exp 0.2) by (pose proof (exp_ineq1 0.2 ltac:(lra)); lra).
  replace (- 0.6) with (- (0.2 + 0.2 + 0.2)) by lra.
  rewrite exp_Ropp, !exp_plus.
  set (e := exp 0.2) in *.
  assert (He : 1.728 < e * e * e) by nra.
  apply Rmult_lt_reg_r with (e * e * e); [ lra | ].
  rewrite Rinv_l; lra.
Qed.

Lemma exp_monotone (x y : R) : x <= y -> exp x <= exp y.
Proof.
  intros [H | H].
  - left. apply exp_increasing. exact H.
  - subst. lra.
Qed.

End Builtins.

(** ** shader1-circles.cpp: the fragment shader *)
Section CirclesShader.
Import Glsl Circles.
Local Open Scope R_scope.

Lemma shade_in_unit (u : Uniforms) (p : vec2) (s : March) : in_unit (shade u p s).
Proof. unfold shade. apply gamma_in_unit. lra. Qed.

Lemma screen_p_some (u : Uniforms) (uv : vec2) :
  v2y (iResolution u) <> 0 -> exists p, screen_p u uv = Some p.
Proof.
  intros H. unfold screen_p. rewrite (fdiv_some _ _ H). simpl. eauto.
Qed.

(** On any resolution of non-zero height the shader returns a colour, and
    its channels are in [0,1]. *)
Lemma circles_main_in_unit (u : Uniforms) (uv : vec2) :
  v2y (iResolution u) <> 0 ->
  exists c, main u uv = Some c /\ in_unit c.
Proof.
  intros H. unfold main. destruct (screen_p_some u uv H) as [p Hp].
  rewrite Hp. simpl. eexists. split; [ reflexivity | apply shade_in_unit ].
Qed.

(** Without a height the aspect ratio has no value, and neither has the
    colour. *)
Lemma circles_main_zero_height (u : Uniforms) (uv : vec2) :
  v2y (iResolution u) = 0 -> main u uv = None.
Proof.
  intros H. unfold main, screen_p. rewrite H, fdiv_zero. reflexivity.
Qed.

Lemma march_body_advances (u : Uniforms) (ro rd : vec3) (s : March) :
  t s + 0.02 <= t (march_body u ro rd s).
Proof.
  unfold march_body. cbv zeta. cbn [t].
  match goal with
  | |- _ <= _ + max ?a ?b => pose proof (max_lower_l a b)
  end.
  lra.
Qed.

Local Arguments march_body : simpl never.

Lemma march_trace_length (n : nat) (u : Uniforms) (ro rd : vec3) :
  forall s, (List.length (march_trace n u ro rd s) <= n)%nat.
Proof.
  induction n as [ | n IH]; intros s; cbn.
  - lia.
  - destruct (Rlt_dec 100.0 (t (march_body u ro rd s))); cbn.
    + lia.
    + specialize (IH (march_body u ro rd s)). lia.
Qed.

Lemma march_trace_advancing (n : nat) (u : Uniforms) (ro rd : vec3) :
  forall s, advancing 0.02 (t s) (map t (march_trace n u ro rd s)).
Proof.
  induction n as [ | n IH]; intros s; cbn.
  - exact I.
  - pose proof (march_body_advances u ro rd s) as Hstep.
    destruct (Rlt_dec 100.0 (t (march_body u ro rd s))); cbn.
    + split; [ exact Hstep | exact I ].
    + split; [ exact Hstep | apply IH ].
Qed.

Lemma march_trace_stops (n : nat) (u : Uniforms) (ro rd : vec3) :
  forall s, stops_at_cutoff 100.0 (map t (march_trace n u ro rd s)).
Proof.
  induction n as [ | n IH]; intros s; cbn.
  - exact I.
  - destruct (Rlt_dec 100.0 (t (march_body u ro rd s))) as [Hgt | Hle]; cbn.
    + exact I.
    + specialize (IH (march_body u ro rd s)).
      destruct (map t (march_trace n u ro rd (march_body u ro rd s))) eqn:E.
      * exact I.
      * split; [ lra | exact IH ].
Qed.

Lemma march_loop_last (n : nat) (u : Uniforms) (ro rd : vec3) :
  forall s, march_loop n u ro rd s = last (march_trace n u ro rd s) s.
Proof.
  induction n as [ | n IH]; intros s; cbn.
  - reflexivity.
  - destruct (Rlt_dec 100.0 (t (march_body u ro rd s))); cbn.
    + reflexivity.
    + rewrite IH.
      destruct (march_trace n u ro rd (march_body u ro rd s)) eqn:E.
      * reflexivity.
      * apply last_nonempty_default.
Qed.

(** The loop leaves early only through its [break]. *)
Lemma march_trace_full_or_cut (n : nat) (u : Uniforms) (ro rd : vec3) :
  forall s,
    List.length (march_trace n u ro rd s) = n
    \/ 100.0 < t (last (march_trace n u ro rd s) s).
Proof.
  induction n as [ | n IH]; intros s; cbn.
  - left. reflexivity.
  - destruct (Rlt_dec 100.0 (t (march_body u ro rd s))) as [Hgt | Hle]; cbn.
    + right. exact Hgt.
    + destruct (IH (march_body u ro rd s)) as [Hlen | Hcut].
      * left. rewrite Hlen. reflexivity.
      * right.
        destruct (march_trace n u ro rd (march_body u ro rd s)) eqn:E.
        -- cbn in Hcut. contradiction.
        -- rewrite (last_nonempty_default _ _ s (march_body u ro rd s)).
           exact Hcut.
Qed.

End CirclesShader.

(** ** The second ray-marching program: the loop *)
Section PlasmaShader.
Import Glsl Plasma.
Local Open Scope R_scope.

Lemma plasma_body_advances (u : Uniforms) (ro rd : vec3) (s : March) :
  t s + 0.015 <= t (march_body u ro rd s).
Proof.
  unfold march_body. cbv zeta. cbn [t].
  match goal with
  | |- _ <= _ + max ?a ?b => pose proof (max_lower_l a b)
  end.
  lra.
Qed.

Local Arguments march_body : simpl never.

Lemma plasma_trace_length (n : nat) (u : Uniforms) (ro rd : vec3) :
  forall s, (List.length (march_trace n u ro rd s) <= n)%nat.
Proof.
  induction n as [ | n IH]; intros s; cbn.
  - lia.
  - destruct (Rlt_dec 200.0 (t (march_body u ro rd s))); cbn.
    + lia.
    + specialize (IH (march_body u ro rd s)). lia.
Qed.

Lemma plasma_trace_advancing (n : nat) (u : Uniforms) (ro rd : vec3) :
  forall s, advancing 0.015 (t s) (map t (march_trace n u ro rd s)).
Proof.
  induction n as [ | n IH]; intros s; cbn.
  - exact I.
  - pose proof (plasma_body_advances u ro rd s) as Hstep.
    destruct (Rlt_dec 200.0 (t (march_body u ro rd s))); cbn.
    + split; [ exact Hstep | exact I ].
    + split; [ exact Hstep | apply IH ].
Qed.

Lemma plasma_trace_stops (n : nat) (u : Uniforms) (ro rd : vec3) :
  forall s, stops_at_cutoff 200.0 (map t (march_trace n u ro rd s)).
Proof.
  induction n as [ | n IH]; intros s; cbn.
  - exact I.
  - destruct (Rlt_dec 200.0 (t (march_body u ro rd s))) as [Hgt | Hle]; cbn.
    + exact I.
    + specialize (IH (march_body u ro rd s)).
      destruct (map t (march_trace n u ro rd (march_body u ro rd s))) eqn:E.
      * exact I.
      * split; [ lra | exact IH ].
Qed.

Lemma plasma_loop_last (n : nat) (u : Uniforms) (ro rd : vec3) :
  forall s, march_loop n u ro rd s = last (march_trace n u ro rd s) s.
Proof.
  induction n as [ | n IH]; intros s; cbn.
  - reflexivity.
  - destruct (Rlt_dec 200.0 (t (march_body u ro rd s))); cbn.
    + reflexivity.
    + rewrite IH.
      destruct (march_trace n u ro rd (march_body u ro rd s)) eqn:E.
      * reflexivity.
      * apply last_nonempty_default.
Qed.

Lemma plasma_trace_full_or_cut (n : nat) (u : Uniforms) (ro rd : vec3) :
  forall s,
    List.length (march_trace n u ro rd s) = n
    \/ 200.0 < t (last (march_trace n u ro rd s) s).
Proof.
  induction n as [ | n IH]; intros s; cbn.
  - left. reflexivity.
  - destruct (Rlt_dec 200.0 (t (march_body u ro rd s))) as [Hgt | Hle]; cbn.
    + right. exact Hgt.
    + destruct (IH (march_body u ro rd s)) as [Hlen | Hcut].
      * left. rewrite Hlen. reflexivity.
      * right.
        destruct (march_trace n u ro rd (march_body u ro rd s)) eqn:E.
        -- cbn in Hcut. contradiction.
        -- rewrite (last_nonempty_default _ _ s (march_body u ro rd s)).
           exact Hcut.
Qed.

End PlasmaShader.

(** ** The ray-march loops *)

(** C8.  In both ray-marching shaders, from any ray and any state of the
    loop variables: the loop ends, its result being the state after the last
    of at most 120 (resp. 140) passes; every pass moves the travel distance
    [t] forward by at least 0.02 (resp. 0.015), so [t] increases strictly;
    no pass but the last leaves [t] above the cutoff 100 (resp. 200); and
    the loop runs its whole budget unless [t] has passed the cutoff. *)
Theorem march_loop_bounded_and_advancing :
  (forall (u : Circles.Uniforms) (ro rd : Glsl.vec3) (s : Circles.March),
      let trace := Circles.march_trace Circles.budget u ro rd s in
      Circles.march_loop Circles.budget u ro rd s = last trace s
      /\ (List.length trace <= 120)%nat
      /\ advancing 0.02 (Circles.t s) (map Circles.t trace)
      /\ stops_at_cutoff 100.0 (map Circles.t trace)
      /\ (List.length trace = 120%nat \/ (100.0 < Circles.t (last trace s))%R))
  /\ (forall (u : Plasma.Uniforms) (ro rd : Glsl.vec3) (s : Plasma.March),
         let trace := Plasma.march_trace Plasma.budget u ro rd s in
         Plasma.march_loop Plasma.budget u ro rd s = last trace s
         /\ (List.length trace <= 140)%nat
         /\ advancing 0.015 (Plasma.t s) (map Plasma.t trace)
         /\ stops_at_cutoff 200.0 (map Plasma.t trace)
         /\ (List.length trace = 140%nat \/ (200.0 < Plasma.t (last trace s))%R)).
Proof.
  split; intros u ro rd s trace; subst trace.
  - split; [ apply march_loop_last | ].
    split; [ apply (march_trace_length 120) | ].
    split; [ apply march_trace_advancing | ].
    split; [ apply march_trace_stops | apply (march_trace_full_or_cut 120) ].
  - split; [ apply plasma_loop_last | ].
    split; [ apply (plasma_trace_length 140) | ].
    split; [ apply plasma_trace_advancing | ].
    split; [ apply plasma_trace_stops | apply (plasma_trace_full_or_cut 140) ].
Qed.

(** ** The end-to-end scenario *)
Section CenterPixel.
Import Glsl Circles.
Local Open Scope R_scope.

(** On the axis of the tunnel the distance to the wall is between 0.5 and
    1.5: the radius is 1 with waves of amplitude 0.3 and 0.2. *)
Lemma tunnelSDF_on_axis (u : Uniforms) (p : vec3) :
  v3x p = 0 -> v3y p = 0 -> -1.5 <= tunnelSDF u p <= -0.5.
Proof.
  intros Hx Hy. unfold tunnelSDF, length2, dot2. cbn [v2x v2y].
  rewrite Hx, Hy.
  replace (0 * 0 + 0 * 0) with 0 by lra. rewrite sqrt_0.
  match goal with
  | |- context [ 0.3 * sin ?a ] => pose proof (SIN_bound a)
  end.
  match goal with
  | |- context [ 0.2 * sin ?a ] => pose proof (SIN_bound a)
  end.
  lra.
Qed.

Lemma axis_step (u : Uniforms) (ro rd : vec3) (s : March) :
  v3x ro = 0 -> v3y ro = 0 -> v3x rd = 0 -> v3y rd = 0 ->
  t s + 0.25 <= t (march_body u ro rd s) <= t s + 0.75.
Proof.
  intros Hox Hoy Hdx Hdy. unfold march_body. cbv zeta. cbn [t].
  match goal with
  | |- context [ max 0.02 (0.5 * abs (tunnelSDF u ?p)) ] =>
      assert (Hd : -1.5 <= tunnelSDF u p <= -0.5)
        by (apply tunnelSDF_on_axis; cbn; rewrite ?Hox, ?Hoy, ?Hdx, ?Hdy; lra);
      set (d := tunnelSDF u p) in *
  end.
  clearbody d. unfold abs. rewrite (Rabs_left d) by lra.
  unfold max. destruct (Rlt_dec 0.02 (0.5 * - d)); lra.
Qed.

Local Arguments march_body : simpl never.

Lemma axis_march (u : Uniforms) (ro rd : vec3) :
  v3x ro = 0 -> v3y ro = 0 -> v3x rd = 0 -> v3y rd = 0 ->
  forall (n : nat) (s : March),
    t s + 0.75 * INR n <= 100 ->
    t s + 0.25 * INR n <= t (march_loop n u ro rd s) <= t s + 0.75 * INR n.
Proof.
  intros Hox Hoy Hdx Hdy. induction n as [ | n IH]; intros s Hroom.
  - cbn. lra.
  - rewrite S_INR in *. cbn [march_loop].
    pose proof (axis_step u ro rd s Hox Hoy Hdx Hdy) as Hstep.
    pose proof (pos_INR n) as Hn.
    destruct (Rlt_dec 100.0 (t (march_body u ro rd s))) as [Hgt | _].
    + lra.
    + specialize (IH (march_body u ro rd s) ltac:(lra)). lra.
Qed.

Lemma scenario_uv : Scenario.uv = Vec2 0.5 0.5.
Proof.
  unfold Scenario.uv, vertex_uv, ndc_of_pixel, adds2, scale2. cbn [v2x v2y].
  f_equal; lra.
Qed.

Lemma scenario_screen_p :
  screen_p Scenario.uniforms Scenario.uv = Some (Vec2 (0 * 2.0 + - 1.0 + 1) 0).
Proof.
  rewrite scenario_uv. unfold screen_p, Scenario.uniforms. cbn [iResolution v2x v2y].
  rewrite fdiv_some by lra. cbn [bind adds2 scale2 v2x v2y].
  f_equal. f_equal; lra.
Qed.

Lemma scenario_march_distance :
  forall p, v2x p = 0 -> v2y p = 0 ->
  30 <= t (march Scenario.uniforms p) <= 90.
Proof.
  intros p Hx Hy. unfold march, budget.
  assert (H120 : INR 120 = 120) by (rewrite INR_IZR_INZ; reflexivity).
  pose proof (axis_march Scenario.uniforms
                (ray_origin Scenario.uniforms) (ray_dir Scenario.uniforms p)) as H.
  assert (Hdx : v3x (ray_dir Scenario.uniforms p) = 0).
  { unfold ray_dir, normalize3. cbn [v3x]. rewrite Hx. unfold Rdiv. apply Rmult_0_l. }
  assert (Hdy : v3y (ray_dir Scenario.uniforms p) = 0).
  { unfold ray_dir, normalize3. cbn [v3x v3y]. rewrite Hy. unfold Rdiv. apply Rmult_0_l. }
  assert (Ht0 : t march_init = 0) by (unfold march_init; cbn [t]; lra).
  specialize (H ltac:(cbn; lra) ltac:(cbn; lra) Hdx Hdy 120%nat march_init).
  rewrite H120, Ht0 in H.
  specialize (H ltac:(lra)). lra.
Qed.

Lemma depth_of_attenuated (s : March) :
  30 <= t s <= 90 -> 0 < depth_of s < 0.6.
Proof.
  intros [Hlo Hhi]. unfold depth_of.
  assert (Hpos : 0 < exp (-0.02 * t s)) by apply exp_pos.
  assert (Hle : exp (-0.02 * t s) <= exp (- 0.6)).
  { apply exp_monotone. lra. }
  pose proof exp_m06 as H06.
  rewrite clamp_id by lra. lra.
Qed.

Lemma center_pixel_depth_bound :
  exists d : R,
    main_depth Scenario.uniforms Scenario.uv = Some d /\ 0 < d < 0.6.
Proof.
  unfold main_depth. rewrite scenario_screen_p. cbn [bind].
  eexists. split; [ reflexivity | ].
  apply depth_of_attenuated. apply scenario_march_distance; cbn; lra.
Qed.

(** C9, as the code has it.  At time 0, default parameters, resolution
    1280x720 and the centre pixel (640, 360), the shader returns a colour
    with channels in [0,1], hence non-negative and finite; its depth factor
    is positive and below 0.6: the ray runs along the axis for between 30
    and 90 units, and the fog attenuates accordingly. *)
Theorem center_pixel_scenario :
  exists (c : vec3) (d : R),
    main Scenario.uniforms Scenario.uv = Some c
    /\ main_depth Scenario.uniforms Scenario.uv = Some d
    /\ in_unit c
    /\ 0 < d < 0.6.
Proof.
  unfold main, main_depth. rewrite scenario_screen_p. cbn [bind].
  eexists. eexists. split; [ reflexivity | ]. split; [ reflexivity | ].
  split; [ apply shade_in_unit | ].
  apply depth_of_attenuated. apply scenario_march_distance; cbn; lra.
Qed.

(** C9 fails as stated: the depth factor of the scenario is not near 1,
    it is not even 0.6. *)
Lemma center_pixel_depth_not_one :
  ~ exists d : R,
      main_depth Scenario.uniforms Scenario.uv = Some d /\ 0.6 <= d.
Proof.
  intros (d & Hd & Hge).
  destruct center_pixel_depth_bound as (d' & Hd' & Hlt).
  rewrite Hd in Hd'. injection Hd' as ->. lra.
Qed.

End CenterPixel.

(** ** Range of the colours, and the resolution guard *)
Section ColourRange.
Import Glsl.
Local Open Scope R_scope.

(** shader3 returns its debug colour, whatever the pipeline before it. *)
Lemma tunnel_dev_main_value (u : TunnelDev.Uniforms) (fc : vec2) :
  v2y (TunnelDev.uResolution u) <> 0 ->
  TunnelDev.main u fc =
  Some (Vec3 ((v2x fc * 2.0 - v2x (TunnelDev.uResolution u))
                / v2y (TunnelDev.uResolution u) * 0.5 + 0.5)
             ((v2y fc * 2.0 - v2y (TunnelDev.uResolution u))
                / v2y (TunnelDev.uResolution u) * 0.5 + 0.5)
             0.0).
Proof.
  intros H. unfold TunnelDev.main. cbv zeta.
  rewrite !(fdiv_some _ _ H). cbn [bind]. reflexivity.
Qed.

Lemma tunnel_dev_main_zero_height (u : TunnelDev.Uniforms) (fc : vec2) :
  v2y (TunnelDev.uResolution u) = 0 -> TunnelDev.main u fc = None.
Proof.
  intros H. unfold TunnelDev.main. cbv zeta. rewrite H, fdiv_zero. reflexivity.
Qed.

Lemma safeResolution_positive (res : vec2) :
  0 < v2x (Single45.safeResolution res) /\ 0 < v2y (Single45.safeResolution res).
Proof.
  unfold Single45.safeResolution.
  destruct (Rle_dec (v2x res) 0.0); [ cbn; lra | ].
  destruct (Rle_dec (v2y res) 0.0); [ cbn; lra | lra ].
Qed.

Lemma safeResolution_keeps (res : vec2) :
  0 < v2x res -> 0 < v2y res -> Single45.safeResolution res = res.
Proof.
  intros Hx Hy. unfold Single45.safeResolution.
  destruct (Rle_dec (v2x res) 0.0); [ lra | ].
  destruct (Rle_dec (v2y res) 0.0); [ lra | reflexivity ].
Qed.

Lemma safeResolution_fallback (res : vec2) :
  v2x res <= 0 \/ v2y res <= 0 ->
  Single45.safeResolution res = Vec2 1280.0 720.0.
Proof.
  intros H. unfold Single45.safeResolution.
  destruct (Rle_dec (v2x res) 0.0); [ reflexivity | ].
  destruct (Rle_dec (v2y res) 0.0); [ reflexivity | lra ].
Qed.

(** shader5 returns a colour in [0,1] on every resolution, zero and
    negative ones included. *)
Lemma single45_main_in_unit (u : Single45.Uniforms) (fc : vec2) :
  exists c, Single45.main u fc = Some c /\ in_unit c.
Proof.
  unfold Single45.main. cbv zeta.
  destruct (safeResolution_positive (Single45.iResolution u)) as [_ Hy].
  assert (Hres : v2y (Single45.safeResolution (Single45.iResolution u)) <> 0) by lra.
  rewrite !(fdiv_some _ _ Hres). cbn [bind].
  eexists. split; [ reflexivity | ].
  unfold in_unit, scale3, mix3, mix. cbn [v3x v3y v3z].
  match goal with
  | |- context [ smoothstep ?a ?b ?c ] =>
      pose proof (smoothstep_range a b c) as Hr; set (rings := smoothstep a b c) in *
  end.
  match goal with
  | |- context [ 0.5 + 0.5 * sin ?a ] =>
      pose proof (half_sine_range a) as Hs; set (stripes := 0.5 + 0.5 * sin a) in *
  end.
  clearbody rings stripes.
  repeat split; nra.
Qed.

(** In shader5 a resolution of (0, 0) gives the picture of 1280x720. *)
Lemma single45_zero_resolution (fc : vec2) :
  Single45.main (Inputs.single45_at (Vec2 0 0)) fc
  = Single45.main (Inputs.single45_at (Vec2 1280.0 720.0)) fc.
Proof.
  unfold Single45.main, Inputs.single45_at. cbn [Single45.iResolution].
  rewrite (safeResolution_fallback (Vec2 0 0)) by (cbn; lra).
  rewrite (safeResolution_keeps (Vec2 1280.0 720.0)) by (cbn; lra).
  reflexivity.
Qed.

Lemma plasma_shade_in_unit (u : Plasma.Uniforms) (uv p : vec2) (s : Plasma.March) :
  in_unit (Plasma.shade u uv p s).
Proof. unfold Plasma.shade. cbv zeta. apply gamma_in_unit. lra. Qed.

(** The shaders that end in clamp and gamma (shader1, the second
    ray-marcher) and shader5 keep the channels in [0,1] on every resolution
    of positive width and height and for parameters in their ranges. *)
Lemma clamping_shaders_in_unit :
  (forall (u : Circles.Uniforms) (uv : vec2),
      0 < v2x (Circles.iResolution u) -> 0 < v2y (Circles.iResolution u) ->
      0 < Circles.speed u -> 0.1 <= Circles.warp u -> 0.01 <= Circles.thickness u ->
      exists c, Circles.main u uv = Some c /\ in_unit c)
  /\ (forall (u : Plasma.Uniforms) (uv : vec2),
         0 < v2x (Plasma.iResolution u) -> 0 < v2y (Plasma.iResolution u) ->
         0 < Plasma.speed u -> 0.1 <= Plasma.warp u -> 0.01 <= Plasma.thickness u ->
         exists c, Plasma.main u uv = Some c /\ in_unit c)
  /\ (forall (u : Single45.Uniforms) (fc : vec2),
         0 < v2x (Single45.iResolution u) -> 0 < v2y (Single45.iResolution u) ->
         0 < Single45.speed u -> 0.1 <= Single45.warp u ->
         0.01 <= Single45.thickness u ->
         exists c, Single45.main u fc = Some c /\ in_unit c).
Proof.
  split; [ | split ].
  - intros u uv _ Hy _ _ _. apply circles_main_in_unit. lra.
  - intros u uv _ Hy _ _ _. unfold Plasma.main, Plasma.screen_p.
    rewrite fdiv_some by lra. cbn [bind].
    match goal with
    | |- context [ fdiv 1.0 (0.5 + length2 ?q) ] =>
        assert (Hr : 0.5 + length2 q <> 0)
          by (pose proof (sqrt_pos (dot2 q q)); unfold length2; lra)
    end.
    rewrite (fdiv_some _ _ Hr). cbn [bind].
    eexists. split; [ reflexivity | apply plasma_shade_in_unit ].
  - intros u fc _ _ _ _ _. apply single45_main_in_unit.
Qed.

(** C1, where the code departs from it.  shader3 on a 1280x720 surface
    at time 0 gives the bottom-left pixel a red channel of -559/1440:
    its debug colour [p * 0.5 + 0.5] is neither clamped nor confined to the
    short axis, so the colour is outside [0,1]. *)
Theorem tunnel_dev_colour_out_of_range :
  exists c : vec3,
    TunnelDev.main Inputs.tunnel_dev_720p Inputs.bottom_left = Some c
    /\ v3x c = - 559 / 1440
    /\ ~ in_unit c.
Proof.
  eexists. split; [ | split ].
  - apply tunnel_dev_main_value. cbn. lra.
  - cbn. lra.
  - unfold in_unit. cbn. lra.
Qed.

(** C2, where the code departs from it.  Only shader5 substitutes a
    fallback resolution.  shader1 divides [iResolution.x] by
    [iResolution.y] as they come, and shader3 divides by [uResolution.y]:
    at a resolution of (0, 0) neither has a colour to return. *)
Theorem zero_resolution_unguarded :
  Circles.main Inputs.circles_zero_resolution (Vec2 0.5 0.5) = None
  /\ TunnelDev.main Inputs.tunnel_dev_unset Inputs.bottom_left = None.
Proof.
  split.
  - apply circles_main_zero_height. reflexivity.
  - apply tunnel_dev_main_zero_height. reflexivity.
Qed.

End ColourRange.

(** ** The palette *)
Section Palette.
Import Glsl.
Local Open Scope R_scope.

(** Six decimals of pi, from the series of 2 atan(1/3) + atan(1/7). *)
Lemma PI_above : 3.14159 < PI.
Proof.
  pose proof (PI_2_3_7_ineq 2) as [H _].
  unfold PI_2_3_7_tg, tg_alt, Ratan_seq in H.
  cbn [sum_f_R0 Nat.mul Nat.add] in H.
  rewrite !INR_IZR_INZ in H. cbn [Z.of_nat Pos.of_succ_nat Pos.succ] in H.
  cbn [pow] in H.
  lra.
Qed.

Lemma PI_below : PI < 3.1415927.
Proof.
  pose proof (PI_2_3_7_ineq 3) as [_ H].
  unfold PI_2_3_7_tg, tg_alt, Ratan_seq in H.
  cbn [sum_f_R0 Nat.mul Nat.add] in H.
  rewrite !INR_IZR_INZ in H. cbn [Z.of_nat Pos.of_succ_nat Pos.succ] in H.
  cbn [pow] in H.
  lra.
Qed.

(** The constant of the palette is a little less than 2 pi. *)
Lemma tau_gap : 0 < 2 * PI - 6.28318 < 0.0000054.
Proof. pose proof PI_above. pose proof PI_below. lra. Qed.

Lemma sin_abs_le (h : R) : Rabs (sin h) <= Rabs h.
Proof.
  assert (Hpos : forall x, 0 < x -> Rabs (sin x) <= x).
  { intros x Hx. pose proof (sin_lt_x x Hx) as Hup.
    pose proof (SIN_bound x) as [Hlo _].
    apply Rabs_le. split; [ | lra ].
    destruct (Rle_lt_dec 1 x) as [H1 | H1]; [ lra | ].
    pose proof PI_above.
    pose proof (sin_gt_0 x Hx ltac:(lra)). lra. }
  destruct (Rtotal_order h 0) as [Hneg | [H0 | Hp]].
  - rewrite <- (Ropp_involutive h) at 1. rewrite sin_neg, Rabs_Ropp.
    rewrite (Rabs_left h Hneg). apply Hpos. lra.
  - subst h. rewrite sin_0, Rabs_R0. lra.
  - rewrite (Rabs_right h) by lra. apply Hpos, Hp.
Qed.

Lemma sin_lipschitz (a b : R) : Rabs (sin a - sin b) <= Rabs (a - b).
Proof.
  rewrite form4.
  pose proof (COS_bound ((a + b) / 2)) as Hc.
  pose proof (sin_abs_le ((a - b) / 2)) as Hs.
  rewrite !Rabs_mult. rewrite (Rabs_right 2) by lra.
  assert (Hc' : Rabs (cos ((a + b) / 2)) <= 1) by (apply Rabs_le; lra).
  pose proof (Rabs_pos (cos ((a + b) / 2))).
  pose proof (Rabs_pos (sin ((a - b) / 2))).
  replace (Rabs ((a - b) / 2)) with (Rabs (a - b) / 2) in Hs.
  - nra.
  - unfold Rdiv. rewrite Rabs_mult. rewrite (Rabs_right (/ 2)) by lra. reflexivity.
Qed.

(** One channel of the palette: [0.5 + 0.5 * sin(6.28318 * (t + k + shift))]. *)
Lemma channel_period (x : R) :
  sin (6.28318 * (x + 2 * PI / 6.28318)) = sin (6.28318 * x).
Proof.
  replace (6.28318 * (x + 2 * PI / 6.28318)) with (6.28318 * x + 2 * PI) by (field; lra).
  apply sin_period with (k := 1%nat) || (rewrite sin_plus, sin_2PI, cos_2PI; lra).
Qed.

Lemma channel_near_period (x : R) :
  Rabs ((0.5 + 0.5 * sin (6.28318 * (x + 1))) - (0.5 + 0.5 * sin (6.28318 * x)))
  <= 0.000003.
Proof.
  replace (sin (6.28318 * (x + 1)))
    with (sin (6.28318 * x - (2 * PI - 6.28318))).
  - pose proof (sin_lipschitz (6.28318 * x - (2 * PI - 6.28318)) (6.28318 * x)) as H.
    pose proof tau_gap as Hg.
    replace (6.28318 * x - (2 * PI - 6.28318) - 6.28318 * x)
      with (- (2 * PI - 6.28318)) in H by lra.
    rewrite Rabs_Ropp, (Rabs_right (2 * PI - 6.28318)) in H by lra.
    match goal with
    | |- Rabs ?e <= _ =>
        replace e with (0.5 * (sin (6.28318 * x - (2 * PI - 6.28318))
                               - sin (6.28318 * x))) by lra
    end.
    rewrite Rabs_mult, (Rabs_right 0.5) by lra. lra.
  - replace (6.28318 * (x + 1)) with (6.28318 * x - (2 * PI - 6.28318) + 2 * PI) by lra.
    rewrite sin_plus, sin_2PI, cos_2PI. lra.
Qed.

(** C5, as the code has it.  In both ray-marching shaders and for every
    colour shift, the palette has period 2 pi / 6.28318 in its phase, a
    little more than 1; over a phase step of exactly 1 it returns to within
    0.000003 per channel. *)
Theorem palette_period :
  (forall (u : Circles.Uniforms) (t : R),
      Circles.palette u (t + 2 * PI / 6.28318) = Circles.palette u t
      /\ within 0.000003 (Circles.palette u (t + 1)) (Circles.palette u t))
  /\ (forall (u : Plasma.Uniforms) (t : R),
         Plasma.palette u (t + 2 * PI / 6.28318) = Plasma.palette u t
         /\ within 0.000003 (Plasma.palette u (t + 1)) (Plasma.palette u t)).
Proof.
  split; intros u t; split.
  - unfold Circles.palette. cbv zeta.
    replace (t + 2 * PI / 6.28318 + 0.00 + Circles.colorShift u)
      with (t + 0.00 + Circles.colorShift u + 2 * PI / 6.28318) by lra.
    replace (t + 2 * PI / 6.28318 + 0.33 + Circles.colorShift u)
      with (t + 0.33 + Circles.colorShift u + 2 * PI / 6.28318) by lra.
    replace (t + 2 * PI / 6.28318 + 0.66 + Circles.colorShift u)
      with (t + 0.66 + Circles.colorShift u + 2 * PI / 6.28318) by lra.
    rewrite !channel_period. reflexivity.
  - unfold within, Circles.palette. cbv zeta. cbn [v3x v3y v3z].
    replace (t + 1 + 0.00 + Circles.colorShift u)
      with (t + 0.00 + Circles.colorShift u + 1) by lra.
    replace (t + 1 + 0.33 + Circles.colorShift u)
      with (t + 0.33 + Circles.colorShift u + 1) by lra.
    replace (t + 1 + 0.66 + Circles.colorShift u)
      with (t + 0.66 + Circles.colorShift u + 1) by lra.
    repeat split; apply channel_near_period.
  - unfold Plasma.palette. cbv zeta.
    replace (t + 2 * PI / 6.28318 + 0.00 + Plasma.colorShift u)
      with (t + 0.00 + Plasma.colorShift u + 2 * PI / 6.28318) by lra.
    replace (t + 2 * PI / 6.28318 + 0.33 + Plasma.colorShift u)
      with (t + 0.33 + Plasma.colorShift u + 2 * PI / 6.28318) by lra.
    replace (t + 2 * PI / 6.28318 + 0.66 + Plasma.colorShift u)
      with (t + 0.66 + Plasma.colorShift u + 2 * PI / 6.28318) by lra.
    rewrite !channel_period. reflexivity.
  - unfold within, Plasma.palette. cbv zeta. cbn [v3x v3y v3z].
    replace (t + 1 + 0.00 + Plasma.colorShift u)
      with (t + 0.00 + Plasma.colorShift u + 1) by lra.
    replace (t + 1 + 0.33 + Plasma.colorShift u)
      with (t + 0.33 + Plasma.colorShift u + 1) by lra.
    replace (t + 1 + 0.66 + Plasma.colorShift u)
      with (t + 0.66 + Plasma.colorShift u + 1) by lra.
    repeat split; apply channel_near_period.
Qed.

(** C5 fails as stated: with no colour shift, the palette at phase 1 is
    not the palette at phase 0; its red channel is below 0.5 there. *)
Lemma palette_period_not_one :
  Circles.palette Scenario.uniforms (0 + 1) <> Circles.palette Scenario.uniforms 0.
Proof.
  intros H. apply (f_equal v3x) in H.
  unfold Circles.palette, Scenario.uniforms in H. cbv zeta in H.
  cbn [v3x Circles.colorShift] in H.
  replace (6.28318 * (0 + 0.00 + 0.0)) with 0 in H by lra.
  replace (6.28318 * (0 + 1 + 0.00 + 0.0)) with 6.28318 in H by lra.
  rewrite sin_0 in H.
  pose proof PI_above. pose proof PI_4.
  pose proof (sin_lt_0 6.28318 ltac:(lra) ltac:(lra)). lra.
Qed.

End Palette.

(* ================================================================== *)
(** * Further properties of the code *)
(* ================================================================== *)

(** ** Floor, fract and mod; hash and noise; the distance field *)
Section MoreBuiltins.
Import Glsl.
Local Open Scope R_scope.

Lemma floor_spec (x : R) : floor x <= x < floor x + 1.
Proof.
  unfold floor. destruct (base_fp x) as [H0 H1]. unfold frac_part in *. lra.
Qed.

Lemma floor_unique (x : R) (k : Z) : IZR k <= x < IZR k + 1 -> floor x = IZR k.
Proof.
  intros H. unfold floor. f_equal. symmetry. apply Int_part_spec. lra.
Qed.

Lemma floor_IZR (k : Z) : floor (IZR k) = IZR k.
Proof. apply floor_unique. lra. Qed.

Lemma fract_IZR (k : Z) : fract (IZR k) = 0.
Proof. unfold fract. rewrite floor_IZR. lra. Qed.

Lemma floor_plus_one (x : R) : floor (x + 1) = floor x + 1.
Proof.
  pose proof (floor_spec x) as H. unfold floor in *.
  rewrite <- plus_IZR. fold (floor (x + 1)). apply floor_unique.
  rewrite plus_IZR. lra.
Qed.

Lemma mod_range (x y : R) : 0 < y -> 0 <= mod_ x y < y.
Proof.
  intros Hy. unfold mod_. pose proof (floor_spec (x / y)) as [Hlo Hhi].
  assert (Hx : x = y * (x / y)) by (field; lra).
  split.
  - assert (y * floor (x / y) <= y * (x / y)) by (apply Rmult_le_compat_l; lra). lra.
  - assert (y * (x / y) < y * (floor (x / y) + 1)) by (apply Rmult_lt_compat_l; lra).
    lra.
Qed.

Lemma mod_shift (x y : R) : y <> 0 -> mod_ (x + y) y = mod_ x y.
Proof.
  intros Hy. unfold mod_.
  replace ((x + y) / y) with (x / y + 1) by (field; exact Hy).
  rewrite floor_plus_one. lra.
Qed.

(** X1.  The loop of shader1 samples the tunnel at [mod(pos.z, 12.566370)]:
    the wrapped coordinate lies in [0, 12.566370) and is the same one
    period further along, so the distance field repeats along z. *)
Theorem z_wrap_periodic (z : R) :
  0 <= mod_ z 12.566370 < 12.566370
  /\ mod_ (z + 12.566370) 12.566370 = mod_ z 12.566370
  /\ (forall u x y,
        Circles.tunnelSDF u (Vec3 x y (mod_ (z + 12.566370) 12.566370))
        = Circles.tunnelSDF u (Vec3 x y (mod_ z 12.566370))).
Proof.
  split; [ apply mod_range; lra | ].
  assert (H : mod_ (z + 12.566370) 12.566370 = mod_ z 12.566370)
    by (apply mod_shift; lra).
  split; [ exact H | ]. intros u x y. rewrite H. reflexivity.
Qed.

Lemma mix_range (a b t lo hi : R) :
  lo <= a <= hi -> lo <= b <= hi -> 0 <= t <= 1 -> lo <= mix a b t <= hi.
Proof. intros Ha Hb Ht. unfold mix. split; nra. Qed.

Lemma mix_below (a b t hi : R) :
  a < hi -> b < hi -> 0 <= t <= 1 -> mix a b t < hi.
Proof.
  intros Ha Hb Ht. unfold mix.
  replace hi with (hi * (1 - t) + hi * t) by ring.
  destruct (Rle_dec t (1 / 2)) as [Hs|Hs].
  - apply Rplus_lt_le_compat.
    + apply Rmult_lt_compat_r; lra.
    + apply Rmult_le_compat_r; lra.
  - apply Rplus_le_lt_compat.
    + apply Rmult_le_compat_r; lra.
    + apply Rmult_lt_compat_r; lra.
Qed.

Lemma hermite_range (f : R) : 0 <= f <= 1 -> 0 <= f * f * (3.0 - 2.0 * f) <= 1.
Proof.
  intros Hf.
  assert (Hff : 0 <= f * f) by (apply Rmult_le_pos; lra).
  assert (Hlo : 0 <= f * f * (3 - 2 * f)) by (apply Rmult_le_pos; lra).
  assert (Hgg : 0 <= (1 - f) * (1 - f)) by (apply Rmult_le_pos; lra).
  assert (Hhi : 0 <= (1 - f) * (1 - f) * (1 + 2 * f)) by (apply Rmult_le_pos; lra).
  split; lra.
Qed.

Lemma hash21_range (p : vec2) : 0 <= Circles.hash21 p < 1.
Proof. unfold Circles.hash21. cbv zeta. apply fract_range. Qed.

(** X2.  The hash is a number of [0,1), and so is the value noise built
    from it, at every point of the plane; the second ray-marcher has the
    same noise. *)
Theorem noise_range (p : vec2) :
  0 <= Circles.hash21 p < 1
  /\ 0 <= Circles.noise p < 1
  /\ Plasma.noise p = Circles.noise p.
Proof.
  split; [ apply hash21_range | ]. split; [ | reflexivity ].
  unfold Circles.noise. cbv zeta. cbn [v2x v2y].
  pose proof (fract_range (v2x p)) as Hx. pose proof (fract_range (v2y p)) as Hy.
  pose proof (hermite_range (fract (v2x p)) ltac:(lra)) as Hfx.
  pose proof (hermite_range (fract (v2y p)) ltac:(lra)) as Hfy.
  set (fx := fract (v2x p) * fract (v2x p) * (3.0 - 2.0 * fract (v2x p))) in *.
  set (fy := fract (v2y p) * fract (v2y p) * (3.0 - 2.0 * fract (v2y p))) in *.
  match goal with
  | |- _ <= mix (mix ?a ?b _) (mix ?c ?d _) _ < _ =>
      pose proof (hash21_range
        (Vec2 (floor (v2x p)) (floor (v2y p)))) as Ha;
      assert (Hb : 0 <= b < 1) by apply hash21_range;
      assert (Hc : 0 <= c < 1) by apply hash21_range;
      assert (Hd : 0 <= d < 1) by apply hash21_range;
      set (hb := b) in *; set (hc := c) in *; set (hd := d) in *;
      set (ha := a) in *
  end.
  clearbody fx fy ha hb hc hd.
  split.
  - apply (mix_range _ _ _ 0 1); [ | | lra ];
      apply (mix_range _ _ _ 0 1); lra.
  - apply mix_below; [ | | lra ]; apply mix_below; lra.
Qed.

(** X3.  On the integer lattice the noise is the hash of the point: the
    interpolation weights vanish there. *)
Theorem noise_on_lattice (i j : Z) :
  Circles.noise (Vec2 (IZR i) (IZR j)) = Circles.hash21 (Vec2 (IZR i) (IZR j)).
Proof.
  unfold Circles.noise. cbv zeta. cbn [v2x v2y].
  rewrite !fract_IZR, !floor_IZR. unfold mix. lra.
Qed.

Lemma length2_nonneg (v : vec2) : 0 <= length2 v.
Proof. unfold length2. apply sqrt_pos. Qed.

(** X4.  The tunnel wall stays between radius 0.5 and 1.5 in shader1 (0.43
    and 1.57 in the second ray-marcher): the distance field differs from the
    distance to the axis by that much at most. *)
Theorem tunnelSDF_band :
  (forall (u : Circles.Uniforms) (p : vec3),
      let r := length2 (Vec2 (v3x p) (v3y p)) in
      r - 1.5 <= Circles.tunnelSDF u p <= r - 0.5)
  /\ (forall (u : Plasma.Uniforms) (p : vec3),
         let r := length2 (Vec2 (v3x p) (v3y p)) in
         r - 1.57 <= Plasma.tunnelSDF u p <= r - 0.43).
Proof.
  split; intros u p r; subst r.
  - unfold Circles.tunnelSDF. cbv zeta.
    match goal with |- context [ 0.3 * sin ?a ] => pose proof (SIN_bound a) end.
    match goal with |- context [ 0.2 * sin ?a ] => pose proof (SIN_bound a) end.
    lra.
  - unfold Plasma.tunnelSDF. cbv zeta.
    match goal with |- context [ 0.35 * sin ?a ] => pose proof (SIN_bound a) end.
    match goal with |- context [ 0.22 * sin ?a ] => pose proof (SIN_bound a) end.
    lra.
Qed.

End MoreBuiltins.

(** ** What the ray-march loops accumulate *)
Section MarchBounds.
Import Glsl.
Local Open Scope R_scope.

Lemma exp_nonpos_range (x : R) : x <= 0 -> 0 < exp x <= 1.
Proof.
  intros H. split; [ apply exp_pos | ].
  rewrite <- exp_0. apply exp_monotone. exact H.
Qed.

Lemma exp_m0048 : exp (- 0.048) < 0.96.
Proof.
  pose proof (exp_ineq1 0.048 ltac:(lra)) as H.
  replace (- 0.048) with (- (0.048)) by lra.
  rewrite exp_Ropp.
  apply Rmult_lt_reg_r with (exp 0.048); [ lra | ].
  rewrite Rinv_l; lra.
Qed.

Lemma unit_product (a b : R) : 0 <= a <= 1 -> 0 <= b <= 1 -> 0 <= a * b <= 1.
Proof. intros Ha Hb. split; nra. Qed.

Lemma circles_body_bounds (u : Circles.Uniforms) (ro rd : vec3) (s : Circles.March) :
  let s' := Circles.march_body u ro rd s in
  Circles.t s + 0.02 <= Circles.t s'
  /\ Circles.accum s <= Circles.accum s' <= Circles.accum s + 1
  /\ Circles.glow s <= Circles.glow s' <= Circles.glow s + 1.
Proof.
  intros s'. split; [ apply march_body_advances | ].
  subst s'. unfold Circles.march_body. cbv zeta.
  cbn [Circles.accum Circles.glow].
  match goal with
  | |- context [ exp (-20.0 * abs ?d) ] =>
      pose proof (exp_nonpos_range (-20.0 * abs d)
                    ltac:(pose proof (abs_nonneg d); lra)) as Hhit;
      set (hit := exp (-20.0 * abs d)) in *
  end.
  match goal with
  | |- context [ 0.5 + 0.5 * sin ?a ] =>
      pose proof (half_sine_range a) as Hl; set (layer := 0.5 + 0.5 * sin a) in *
  end.
  match goal with
  | |- context [ smoothstep ?a ?b ?c ] =>
      pose proof (smoothstep_range a b c) as Hs; set (sm := smoothstep a b c) in *
  end.
  clearbody hit layer sm.
  pose proof (unit_product hit layer ltac:(lra) Hl).
  pose proof (unit_product hit (1.0 - sm) ltac:(lra) ltac:(lra)).
  lra.
Qed.

Local Arguments Circles.march_body : simpl never.

Lemma circles_loop_bounds (n : nat) (u : Circles.Uniforms) (ro rd : vec3) :
  forall s,
    let s' := Circles.march_loop n u ro rd s in
    (Circles.t s + 0.02 * INR n <= Circles.t s' \/ 100 < Circles.t s')
    /\ Circles.accum s <= Circles.accum s' <= Circles.accum s + INR n
    /\ Circles.glow s <= Circles.glow s' <= Circles.glow s + INR n.
Proof.
  induction n as [ | n IH]; intros s.
  - cbn. lra.
  - cbv zeta. rewrite S_INR. pose proof (pos_INR n) as Hn.
    pose proof (circles_body_bounds u ro rd s) as Hb. cbv zeta in Hb.
    cbn [Circles.march_loop]. cbv zeta.
    destruct (Rlt_dec 100.0 (Circles.t (Circles.march_body u ro rd s))) as [Hgt | Hle].
    + split; [ right; lra | lra ].
    + specialize (IH (Circles.march_body u ro rd s)). cbv zeta in IH.
      destruct IH as ([Ht | Ht] & Ha & Hg); (split; [ | lra ]);
        [ left; lra | right; exact Ht ].
Qed.

(** X5.  Whatever the uniforms and the pixel, the ray of shader1 has
    travelled at least 2.4 when the loop ends, the two sums it accumulates
    lie in [0, 120], and the depth factor is below 0.96: no pixel is free
    of fog. *)
Theorem circles_march_bounds (u : Circles.Uniforms) (p : vec2) :
  let s := Circles.march u p in
  2.4 <= Circles.t s
  /\ 0 <= Circles.accum s <= 120
  /\ 0 <= Circles.glow s <= 120
  /\ 0 < Circles.depth_of s < 0.96.
Proof.
  intros s.
  pose proof (circles_loop_bounds Circles.budget u (Circles.ray_origin u)
                (Circles.ray_dir u p) Circles.march_init) as H.
  cbv zeta in H. fold (Circles.march u p) in H. fold s in H.
  replace (INR Circles.budget) with 120 in H
    by (unfold Circles.budget; rewrite INR_IZR_INZ; reflexivity).
  cbn [Circles.march_init Circles.t Circles.accum Circles.glow] in H.
  destruct H as (Ht & Ha & Hg).
  assert (Ht' : 2.4 <= Circles.t s) by (destruct Ht; lra).
  repeat split; try lra.
  - unfold Circles.depth_of.
    pose proof (exp_nonpos_range (-0.02 * Circles.t s) ltac:(lra)) as He.
    rewrite clamp_id by lra. lra.
  - unfold Circles.depth_of.
    pose proof (exp_nonpos_range (-0.02 * Circles.t s) ltac:(lra)) as He.
    assert (Hle : exp (-0.02 * Circles.t s) <= exp (- 0.048))
      by (apply exp_monotone; lra).
    pose proof exp_m0048.
    rewrite clamp_id by lra. lra.
Qed.

Lemma plasma_term_range (hit layer c sp : R) :
  0 < hit <= 1 -> 0 <= layer <= 1 -> -1 <= c <= 1 -> -1 <= sp <= 1 ->
  0 <= hit * (layer * (1.0 + 0.2 * c)) * (0.6 + 0.4 * sp) <= 1.2.
Proof.
  intros Hh Hl Hc Hp.
  assert (H1 : 0 <= hit * (0.6 + 0.4 * sp) <= 1) by (apply unit_product; lra).
  assert (H2 : 0 <= layer * (1.0 + 0.2 * c) <= 1.2) by (split; nra).
  replace (hit * (layer * (1.0 + 0.2 * c)) * (0.6 + 0.4 * sp))
    with (hit * (0.6 + 0.4 * sp) * (layer * (1.0 + 0.2 * c))) by ring.
  split; nra.
Qed.

Lemma plasma_body_bounds (u : Plasma.Uniforms) (ro rd : vec3) (s : Plasma.March) :
  let s' := Plasma.march_body u ro rd s in
  Plasma.t s + 0.015 <= Plasma.t s'
  /\ Plasma.accumR s <= Plasma.accumR s' <= Plasma.accumR s + 1.2
  /\ Plasma.accumG s <= Plasma.accumG s' <= Plasma.accumG s + 1.2
  /\ Plasma.accumB s <= Plasma.accumB s' <= Plasma.accumB s + 1.2
  /\ Plasma.glow s <= Plasma.glow s' <= Plasma.glow s + 1.
Proof.
  intros s'. split; [ apply plasma_body_advances | ].
  subst s'. unfold Plasma.march_body. cbv zeta.
  cbn [Plasma.accumR Plasma.accumG Plasma.accumB Plasma.glow].
  match goal with
  | |- context [ exp (-24.0 * abs ?d) ] =>
      pose proof (exp_nonpos_range (-24.0 * abs d)
                    ltac:(pose proof (abs_nonneg d); lra)) as Hhit;
      set (hit := exp (-24.0 * abs d)) in *
  end.
  match goal with
  | |- context [ 0.5 + 0.5 * sin ?a ] =>
      pose proof (half_sine_range a) as Hl; set (layer := 0.5 + 0.5 * sin a) in *
  end.
  match goal with
  | |- context [ smoothstep ?a ?b ?c ] =>
      pose proof (smoothstep_range a b c) as Hs; set (sm := smoothstep a b c) in *
  end.
  match goal with
  | |- context [ 0.6 + 0.4 * sin ?a ] =>
      pose proof (SIN_bound a) as Hp; set (sp := sin a) in *
  end.
  clearbody hit layer sm sp.
  repeat match goal with
  | |- context [ hit * (layer * (1.0 + 0.2 * sin ?a)) * ?q ] =>
      let H := fresh "Hterm" in
      pose proof (plasma_term_range hit layer (sin a) sp Hhit Hl (SIN_bound a) Hp) as H;
      let x := fresh "term" in
      set (x := hit * (layer * (1.0 + 0.2 * sin a)) * q) in *; clearbody x
  end.
  pose proof (unit_product hit (1.0 - sm) ltac:(lra) ltac:(lra)).
  lra.
Qed.

Local Arguments Plasma.march_body : simpl never.

Lemma plasma_loop_bounds (n : nat) (u : Plasma.Uniforms) (ro rd : vec3) :
  forall s,
    let s' := Plasma.march_loop n u ro rd s in
    (Plasma.t s + 0.015 * INR n <= Plasma.t s' \/ 200 < Plasma.t s')
    /\ Plasma.accumR s <= Plasma.accumR s' <= Plasma.accumR s + 1.2 * INR n
    /\ Plasma.accumG s <= Plasma.accumG s' <= Plasma.accumG s + 1.2 * INR n
    /\ Plasma.accumB s <= Plasma.accumB s' <= Plasma.accumB s + 1.2 * INR n
    /\ Plasma.glow s <= Plasma.glow s' <= Plasma.glow s + INR n.
Proof.
  induction n as [ | n IH]; intros s.
  - cbn. lra.
  - cbv zeta. rewrite S_INR. pose proof (pos_INR n) as Hn.
    pose proof (plasma_body_bounds u ro rd s) as Hb. cbv zeta in Hb.
    cbn [Plasma.march_loop]. cbv zeta.
    destruct (Rlt_dec 200.0 (Plasma.t (Plasma.march_body u ro rd s))) as [Hgt | Hle].
    + split; [ right; lra | lra ].
    + specialize (IH (Plasma.march_body u ro rd s)). cbv zeta in IH.
      destruct IH as ([Ht | Ht] & Ha & Hg); (split; [ | lra ]);
        [ left; lra | right; exact Ht ].
Qed.

(** X6.  The second ray-marcher: at the end of its loop the ray has
    travelled at least 2.1, the three colour sums lie in [0, 168] and the
    glow in [0, 140]. *)
Theorem plasma_march_bounds (u : Plasma.Uniforms) (p : vec2) :
  let s := Plasma.march u p in
  2.1 <= Plasma.t s
  /\ 0 <= Plasma.accumR s <= 168
  /\ 0 <= Plasma.accumG s <= 168
  /\ 0 <= Plasma.accumB s <= 168
  /\ 0 <= Plasma.glow s <= 140.
Proof.
  intros s.
  pose proof (plasma_loop_bounds Plasma.budget u (Plasma.ray_origin u)
                (Plasma.ray_dir u p) Plasma.march_init) as H.
  cbv zeta in H. fold (Plasma.march u p) in H. fold s in H.
  replace (INR Plasma.budget) with 140 in H
    by (unfold Plasma.budget; rewrite INR_IZR_INZ; reflexivity).
  cbn [Plasma.march_init Plasma.t Plasma.accumR Plasma.accumG Plasma.accumB
       Plasma.glow] in H.
  destruct H as (Ht & HR & HG & HB & Hg).
  assert (Ht' : 2.1 <= Plasma.t s) by (destruct Ht; lra).
  repeat split; lra.
Qed.

Lemma length3_unit (v : vec3) : v3z v <> 0 -> length3 (normalize3 v) = 1.
Proof.
  intros Hz. unfold normalize3, length3. cbn [v3x v3y v3z].
  set (n2 := v3x v * v3x v + v3y v * v3y v + v3z v * v3z v).
  assert (Hn2 : 0 < n2).
  { unfold n2. pose proof (Rle_0_sqr (v3x v)). pose proof (Rle_0_sqr (v3y v)).
    assert (0 < v3z v * v3z v) by (apply Rsqr_pos_lt in Hz; exact Hz).
    unfold Rsqr in *. lra. }
  assert (Hs : 0 < sqrt n2) by (apply sqrt_lt_R0; exact Hn2).
  assert (Hss : sqrt n2 * sqrt n2 = n2) by (apply sqrt_sqrt; lra).
  set (l := sqrt n2) in *. clearbody l.
  replace (v3x v / l * (v3x v / l) + v3y v / l * (v3y v / l)
           + v3z v / l * (v3z v / l))
    with (n2 / (l * l)) by (unfold n2; field; lra).
  rewrite Hss.
  replace (n2 / n2) with 1 by (field; lra). apply sqrt_1.
Qed.

(** X7.  The ray direction is a unit vector pointing into the screen (its z
    component is negative), for every pixel and every time, in both
    ray-marchers. *)
Theorem ray_dir_unit :
  (forall (u : Circles.Uniforms) (p : vec2),
      length3 (Circles.ray_dir u p) = 1 /\ v3z (Circles.ray_dir u p) < 0)
  /\ (forall (u : Plasma.Uniforms) (p : vec2),
         length3 (Plasma.ray_dir u p) = 1 /\ v3z (Plasma.ray_dir u p) < 0).
Proof.
  split; intros u p.
  - unfold Circles.ray_dir.
    pose proof (SIN_bound (Circles.iTime u * 0.2)) as Hs.
    set (z := -1.5 + 0.3 * sin (Circles.iTime u * 0.2)) in *.
    assert (Hz : z < 0) by (unfold z; lra).
    split; [ apply length3_unit; cbn; lra | ].
    unfold normalize3. cbn [v3x v3y v3z].
    set (v := Vec3 (v2x p) (v2y p) z).
    assert (Hl : 0 < length3 v).
    { unfold length3. apply sqrt_lt_R0. cbn [v v3x v3y v3z].
      pose proof (Rle_0_sqr (v2x p)). pose proof (Rle_0_sqr (v2y p)).
      assert (0 < z * z) by nra. unfold Rsqr in *. lra. }
    pose proof (Rinv_0_lt_compat _ Hl) as Hi. unfold Rdiv.
    set (i := / length3 v) in *. clearbody i. nra.
  - unfold Plasma.ray_dir.
    pose proof (SIN_bound (Plasma.iTime u * 0.2)) as Hs.
    set (z := -1.6 + 0.5 * sin (Plasma.iTime u * 0.2)) in *.
    assert (Hz : z < 0) by (unfold z; lra).
    split; [ apply length3_unit; cbn; lra | ].
    unfold normalize3. cbn [v3x v3y v3z].
    set (v := Vec3 (v2x p) (v2y p) z).
    assert (Hl : 0 < length3 v).
    { unfold length3. apply sqrt_lt_R0. cbn [v v3x v3y v3z].
      pose proof (Rle_0_sqr (v2x p)). pose proof (Rle_0_sqr (v2y p)).
      assert (0 < z * z) by nra. unfold Rsqr in *. lra. }
    pose proof (Rinv_0_lt_compat _ Hl) as Hi. unfold Rdiv.
    set (i := / length3 v) in *. clearbody i. nra.
Qed.

(** X8.  The two shader stages compose: the fragment stage's [uv * 2 - 1]
    undoes the vertex stage's [inPos * 0.5 + 0.5], so the screen coordinate
    of shader1 is the clip-space position with x scaled by the aspect
    ratio. *)
Theorem screen_p_of_vertex (u : Circles.Uniforms) (inPos : vec2) :
  v2y (Circles.iResolution u) <> 0 ->
  Circles.screen_p u (vertex_uv inPos)
  = Some (Vec2 (v2x inPos
                * (v2x (Circles.iResolution u) / v2y (Circles.iResolution u)))
               (v2y inPos)).
Proof.
  intros H. unfold Circles.screen_p. cbv zeta. rewrite (fdiv_some _ _ H).
  cbn [bind]. unfold vertex_uv, adds2, scale2. cbn [v2x v2y].
  f_equal. f_equal; lra.
Qed.

Lemma screen_p_of_vertex_witness :
  Circles.screen_p Scenario.uniforms (vertex_uv (Vec2 1 (-1)))
  = Some (Vec2 (1 * (1280 / 720)) (-1)).
Proof.
  apply (screen_p_of_vertex Scenario.uniforms (Vec2 1 (-1))). cbn. lra.
Defined.



End MarchBounds.

(** ** Easing, banking and the path of shader3 *)
Section PathAndEase.
Import Glsl.
Local Open Scope R_scope.

Lemma clamp01_cases (t : R) :
  (t <= 0 /\ clamp t 0.0 1.0 = 0)
  \/ (0 <= t <= 1 /\ clamp t 0.0 1.0 = t)
  \/ (1 <= t /\ clamp t 0.0 1.0 = 1).
Proof.
  unfold clamp, min, max.
  destruct (Rlt_dec t 0.0); destruct (Rlt_dec 1.0 0.0);
    try destruct (Rlt_dec 1.0 t); lra.
Qed.

(** X9.  [easeInOut] is a monotone step from 0 to 1: it is 0 up to 0, 1 from
    1 on, within [0,1] and non-decreasing everywhere, and symmetric about
    1/2.  [smoothstep01], written with the built-in, is the same
    function. *)
Theorem easeInOut_shape :
  (forall t, 0 <= TunnelDev.easeInOut t <= 1)
  /\ (forall t, t <= 0 -> TunnelDev.easeInOut t = 0)
  /\ (forall t, 1 <= t -> TunnelDev.easeInOut t = 1)
  /\ (forall t, TunnelDev.easeInOut (1 - t) = 1 - TunnelDev.easeInOut t)
  /\ (forall s t, s <= t -> TunnelDev.easeInOut s <= TunnelDev.easeInOut t)
  /\ (forall t, TunnelDev.smoothstep01 t = TunnelDev.easeInOut t)
  /\ (forall t, ThorTunnel.easeInOut t = TunnelDev.easeInOut t).
Proof.
  assert (Hmono : forall a b, 0 <= a <= 1 -> 0 <= b <= 1 -> a <= b ->
                    a * a * (3.0 - 2.0 * a) <= b * b * (3.0 - 2.0 * b)).
  { intros a b Ha Hb Hab.
    assert (E3 : 3.0 = 3) by lra. assert (E2 : 2.0 = 2) by lra. rewrite E3, E2.
    assert (Hd : b * b * (3 - 2 * b) - a * a * (3 - 2 * a)
                 = (b - a) * (3 * (a + b) - 2 * (a * a + a * b + b * b))) by ring.
    assert (0 <= 3 * (a + b) - 2 * (a * a + a * b + b * b)) by nra.
    assert (0 <= (b - a) * (3 * (a + b) - 2 * (a * a + a * b + b * b)))
      by (apply Rmult_le_pos; lra).
    lra. }
  repeat split.
  - unfold TunnelDev.easeInOut. cbv zeta.
    apply (hermite_range (clamp t 0.0 1.0)).
    pose proof (clamp_range t 0.0 1.0 ltac:(lra)). lra.
  - unfold TunnelDev.easeInOut. cbv zeta.
    apply (hermite_range (clamp t 0.0 1.0)).
    pose proof (clamp_range t 0.0 1.0 ltac:(lra)). lra.
  - intros t Ht. unfold TunnelDev.easeInOut. cbv zeta.
    destruct (clamp01_cases t) as [[_ E] | [[H E] | [H E]]]; rewrite E; try lra.
    + replace t with 0 by lra. lra.
  - intros t Ht. unfold TunnelDev.easeInOut. cbv zeta.
    destruct (clamp01_cases t) as [[H E] | [[H E] | [_ E]]]; rewrite E; try lra.
    + replace t with 1 by lra. lra.
  - intros t. unfold TunnelDev.easeInOut. cbv zeta.
    destruct (clamp01_cases t) as [[H E] | [[H E] | [H E]]];
      destruct (clamp01_cases (1 - t)) as [[H' E'] | [[H' E'] | [H' E']]];
      rewrite E, E'; try lra;
      try (replace t with 0 by lra; lra); try (replace t with 1 by lra; lra).
  - intros s t Hst. unfold TunnelDev.easeInOut. cbv zeta.
    pose proof (clamp_range s 0.0 1.0 ltac:(lra)).
    pose proof (clamp_range t 0.0 1.0 ltac:(lra)).
    apply Hmono; try lra.
    destruct (clamp01_cases s) as [[H1 E] | [[H1 E] | [H1 E]]];
      destruct (clamp01_cases t) as [[H2 E'] | [[H2 E'] | [H2 E']]];
      rewrite E, E'; lra.
  - intros t. unfold TunnelDev.smoothstep01, TunnelDev.easeInOut, smoothstep.
    cbv zeta.
    pose proof (clamp_range t 0.0 1.0 ltac:(lra)) as Hc.
    set (c := clamp t 0.0 1.0) in *.
    replace ((c - 0.0) / (1.0 - 0.0)) with c
      by (replace (1.0 - 0.0) with 1 by lra; replace (c - 0.0) with c by lra;
          unfold Rdiv; rewrite Rinv_1; ring).
    replace (clamp c 0 1) with c; [ lra | ].
    symmetry. apply clamp_id. lra.
Qed.

Lemma length2_sq (v : vec2) : length2 v * length2 v = v2x v * v2x v + v2y v * v2y v.
Proof.
  unfold length2, dot2. apply sqrt_sqrt.
  pose proof (Rle_0_sqr (v2x v)). pose proof (Rle_0_sqr (v2y v)).
  unfold Rsqr in *. lra.
Qed.

Lemma sin_cos_one (a : R) : sin a * sin a + cos a * cos a = 1.
Proof. pose proof (sin2_cos2 a) as H. unfold Rsqr in H. exact H. Qed.

(** X10.  The banking matrix [rot(a)] is a rotation: it keeps the length of
    every vector, and [rot(-a)] undoes it. *)
Theorem rot_is_rotation (a : R) (v : vec2) :
  length2 (mulmv (TunnelDev.rot a) v) = length2 v
  /\ mulmv (TunnelDev.rot (- a)) (mulmv (TunnelDev.rot a) v) = v
  /\ ThorTunnel.rot a = TunnelDev.rot a
  /\ Plasma.rot a = TunnelDev.rot a.
Proof.
  pose proof (sin_cos_one a) as H1.
  split; [ | split; [ | split; reflexivity ] ].
  - unfold length2, dot2, mulmv, TunnelDev.rot. cbv zeta.
    cbn [m00 m01 m10 m11 v2x v2y]. f_equal.
    set (s := sin a) in *. set (c := cos a) in *. clearbody s c.
    replace ((c * v2x v + s * v2y v) * (c * v2x v + s * v2y v)
             + (- s * v2x v + c * v2y v) * (- s * v2x v + c * v2y v))
      with ((s * s + c * c) * (v2x v * v2x v + v2y v * v2y v)) by ring.
    rewrite H1. ring.
  - unfold mulmv, TunnelDev.rot. cbv zeta. cbn [m00 m01 m10 m11 v2x v2y].
    rewrite sin_neg, cos_neg.
    set (s := sin a) in *. set (c := cos a) in *. clearbody s c.
    destruct v as [x y]. cbn [v2x v2y]. f_equal.
    + replace (c * (c * x + s * y) + - s * (- s * x + c * y))
        with ((s * s + c * c) * x) by ring. rewrite H1. ring.
    + replace (- - s * (c * x + s * y) + c * (- s * x + c * y))
        with ((s * s + c * c) * y) by ring. rewrite H1. ring.
Qed.

Lemma floor_div4 (k : Z) : floor (IZR k / 4.0) = IZR (k / 4).
Proof.
  replace 4.0 with 4 by lra.
  apply floor_unique.
  pose proof (Z.div_mod k 4 ltac:(lia)) as Hdm.
  pose proof (Z.mod_pos_bound k 4 ltac:(lia)) as Hb.
  assert (Hk : IZR k = 4 * IZR (k / 4) + IZR (k mod 4)).
  { rewrite Hdm at 1. rewrite plus_IZR, mult_IZR. reflexivity. }
  assert (0 <= IZR (k mod 4) <= 3).
  { split; apply IZR_le; lia. }
  split.
  - apply Rmult_le_reg_r with 4; [ lra | ].
    replace (IZR k / 4 * 4) with (IZR k) by (field; lra). lra.
  - apply Rmult_lt_reg_r with 4; [ lra | ].
    replace (IZR k / 4 * 4) with (IZR k) by (field; lra). lra.
Qed.

Lemma mod4_IZR (k : Z) : mod_ (IZR k) 4.0 = IZR (k mod 4).
Proof.
  unfold mod_. rewrite floor_div4.
  pose proof (Z.div_mod k 4 ltac:(lia)) as Hdm.
  assert (Hk : IZR k = 4 * IZR (k / 4) + IZR (k mod 4)).
  { rewrite Hdm at 1. rewrite plus_IZR, mult_IZR. reflexivity. }
  lra.
Qed.

Lemma Int_part_IZR (m : Z) : Int_part (IZR m) = m.
Proof. symmetry. apply Int_part_spec. lra. Qed.

Lemma int_IZR_nonneg (m : Z) : (0 <= m)%Z -> TunnelDev.int_ (IZR m) = m.
Proof.
  intros Hm. unfold TunnelDev.int_.
  destruct (Rlt_dec (IZR m) 0) as [Hlt | _].
  - apply IZR_le in Hm. lra.
  - apply Int_part_IZR.
Qed.

(** The cardinal direction of a segment and that of the next one are
    perpendicular unit vectors. *)
Lemma cardinal_consecutive (k : Z) :
  let d := TunnelDev.cardinal (k mod 4) in
  let d' := TunnelDev.cardinal ((k + 1) mod 4) in
  v2x d * v2x d + v2y d * v2y d = 1
  /\ v2x d' * v2x d' + v2y d' * v2y d' = 1
  /\ v2x d * v2x d' + v2y d * v2y d' = 0.
Proof.
  pose proof (Z.mod_pos_bound k 4 ltac:(lia)) as Hb.
  assert (Hn : ((k + 1) mod 4 = (k mod 4 + 1) mod 4)%Z)
    by (rewrite Z.add_mod_idemp_l; lia).
  rewrite Hn.
  assert (Hc : (k mod 4 = 0 \/ k mod 4 = 1 \/ k mod 4 = 2 \/ k mod 4 = 3)%Z) by lia.
  destruct Hc as [E | [E | [E | E]]]; rewrite E; cbn; lra.
Qed.

Lemma length2_normalize (v : vec2) :
  0 < v2x v * v2x v + v2y v * v2y v -> length2 (normalize2 v) = 1.
Proof.
  intros Hpos. unfold normalize2.
  assert (Hl : 0 < length2 v) by (unfold length2, dot2; apply sqrt_lt_R0; exact Hpos).
  pose proof (length2_sq v) as Hsq.
  set (l := length2 v) in *. clearbody l.
  unfold length2, dot2. cbn [v2x v2y].
  replace (v2x v / l * (v2x v / l) + v2y v / l * (v2y v / l))
    with ((v2x v * v2x v + v2y v * v2y v) / (l * l)) by (field; lra).
  rewrite Hsq.
  replace ((v2x v * v2x v + v2y v * v2y v) / (v2x v * v2x v + v2y v * v2y v))
    with 1 by (field; lra).
  apply sqrt_1.
Qed.

(** X11.  [pathDirection] returns a unit vector at every depth [z]: the
    blend of the directions of two successive segments never vanishes,
    because they are perpendicular. *)
Theorem pathDirection_unit (z : R) : length2 (TunnelDev.pathDirection z) = 1.
Proof.
  unfold TunnelDev.pathDirection. cbv zeta.
  unfold floor at 1 2. set (k := Int_part (z / 6.0)).
  replace (IZR k + 1.0) with (IZR (k + 1)) by (rewrite plus_IZR; lra).
  rewrite !mod4_IZR.
  rewrite !int_IZR_nonneg by (apply Z.mod_pos_bound; lia).
  destruct (cardinal_consecutive k) as (Hd & Hd' & Hp). cbv zeta in Hd, Hd', Hp.
  set (d := TunnelDev.cardinal (k mod 4)) in *.
  set (d' := TunnelDev.cardinal ((k + 1) mod 4)) in *.
  match goal with |- context [ mix2 d d' ?w0 ] => set (w := w0) end.
  clearbody w d d'.
  apply length2_normalize. unfold mix2, mix. cbn [v2x v2y].
  replace ((v2x d * (1 - w) + v2x d' * w) * (v2x d * (1 - w) + v2x d' * w)
           + (v2y d * (1 - w) + v2y d' * w) * (v2y d * (1 - w) + v2y d' * w))
    with ((1 - w) * (1 - w) * (v2x d * v2x d + v2y d * v2y d)
          + w * w * (v2x d' * v2x d' + v2y d' * v2y d')
          + 2 * w * (1 - w) * (v2x d * v2x d' + v2y d * v2y d')) by ring.
  rewrite Hd, Hd', Hp. nra.
Qed.

(** X12.  The material colour of shader3 has its channels in [0,1], for all
    arguments. *)
Theorem tunnelMaterial_in_unit (uv : vec2) (r a z : R) :
  in_unit (TunnelDev.tunnelMaterial uv r a z).
Proof.
  unfold TunnelDev.tunnelMaterial, in_unit, scale3, mix3, mix. cbv zeta.
  cbn [v3x v3y v3z].
  pose proof (SIN_bound (10.0 * r - 0.6 * z)) as H1.
  pose proof (SIN_bound (8.0 * a + 1.2 * z)) as H2.
  pose proof (half_sine_range (a * 2.0)) as H3.
  pose proof (smoothstep_range 1.4 0.2 r) as H4.
  set (rings := sin (10.0 * r - 0.6 * z)) in *.
  set (stripes := sin (8.0 * a + 1.2 * z)) in *.
  set (m := 0.5 + 0.5 * sin (a * 2.0)) in *.
  set (v := smoothstep 1.4 0.2 r) in *.
  clearbody rings stripes m v.
  assert (Hrs : -1 <= rings * stripes <= 1) by (split; nra).
  assert (Hk : 0.6 <= 0.6 + 0.4 * (0.5 + 0.5 * rings * stripes) <= 1).
  { rewrite Rmult_assoc. lra. }
  set (k := 0.6 + 0.4 * (0.5 + 0.5 * rings * stripes)) in *. clearbody k.
  assert (Hx : forall c, 0 <= c <= 1 -> 0 <= c * k * (0.6 + 0.4 * v) <= 1).
  { intros c Hc. assert (0 <= c * k <= 1) by (split; nra). split; nra. }
  repeat split; apply Hx; lra.
Qed.

End PathAndEase.

(** ** The hammer tunnel, the rings program, and shader5's guards *)
Section OtherShaders.
Import Glsl.
Local Open Scope R_scope.

(** X13.  The hammer mask is defined for every point and time (its depth
    scale lies between 0.25 and 0.9, so the division is safe) and is a
    number of [0,1]. *)
Theorem hammerMask_defined (uv : vec2) (t : R) :
  exists m : R, ThorTunnel.hammerMask uv t = Some m /\ 0 <= m <= 1.
Proof.
  unfold ThorTunnel.hammerMask. cbv zeta.
  match goal with
  | |- context [ fdiv _ (mix 0.9 0.25 ?c0) ] =>
      pose proof (clamp_range (- fract (mod_ (t * 1.6) 8.0) * 2.0 + 0.4 + 1.0)
                    0.0 1.0 ltac:(lra)) as Hc;
      set (c := c0) in *
  end.
  assert (Hs : 0.25 <= mix 0.9 0.25 c <= 0.9) by (unfold mix; lra).
  set (scale := mix 0.9 0.25 c) in *. clearbody scale.
  rewrite !fdiv_some by lra. cbn [bind].
  eexists. split; [ reflexivity | apply smoothstep_range ].
Qed.

(** X14.  The ThorTunnel shader returns a colour exactly when the height of
    the resolution is not zero, and its channels are then in [0,1]. *)
Theorem thor_main_defined (u : ThorTunnel.Uniforms) (fc : vec2) :
  (v2y (ThorTunnel.uResolution u) = 0 -> ThorTunnel.main u fc = None)
  /\ (v2y (ThorTunnel.uResolution u) <> 0 ->
      exists c, ThorTunnel.main u fc = Some c /\ in_unit c).
Proof.
  split; intros H; unfold ThorTunnel.main; cbv zeta.
  - rewrite H, fdiv_zero. reflexivity.
  - rewrite !(fdiv_some _ _ H). cbn [bind].
    match goal with
    | |- context [ ThorTunnel.hammerMask ?p ?z ] =>
        destruct (hammerMask_defined p z) as (m & Hm & _); rewrite Hm
    end.
    cbn [bind]. eexists. split; [ reflexivity | ].
    apply gamma_in_unit. lra.
Qed.

Lemma mul_m3_zero (p : mat3) :
  mul_m3 p (Mat3 (splat3 0.0) (splat3 0.0) (splat3 0.0))
  = Mat3 (Vec3 0 0 0) (Vec3 0 0 0) (Vec3 0 0 0).
Proof.
  destruct p as [[a b c] [d e f] [g h i]].
  assert (E : splat3 0.0 = Vec3 0 0 0) by (unfold splat3; f_equal; lra).
  rewrite E. unfold mul_m3, mulmv3, add3, scale3.
  cbn [col0 col1 col2 v3x v3y v3z].
  f_equal; f_equal; ring.
Qed.

Lemma scale_m3_zero (k : R) :
  scale_m3 k (Mat3 (Vec3 0 0 0) (Vec3 0 0 0) (Vec3 0 0 0))
  = Mat3 (Vec3 0 0 0) (Vec3 0 0 0) (Vec3 0 0 0).
Proof.
  unfold scale_m3, scale3. cbn [col0 col1 col2 v3x v3y v3z].
  f_equal; f_equal; ring.
Qed.

(** X15.  The hue shift depends on its angle through the cosine only: the
    sine term is multiplied by a zero matrix, so turning the hue by [a] and
    by [-a] gives the same colour. *)
Theorem hueShift_even (c : vec3) (a : R) :
  ThorTunnel.hueShift c (- a) = ThorTunnel.hueShift c a.
Proof.
  unfold ThorTunnel.hueShift. cbv zeta. rewrite cos_neg, sin_neg.
  match goal with
  | |- context [ mul_m3 ?p ?z ] => rewrite (mul_m3_zero p)
  end.
  rewrite !scale_m3_zero. reflexivity.
Qed.

(** X16.  The plain rings shader returns a colour whenever the height is not
    zero; red is in [0,1], green is 0.6 times red, and blue is 1.3 minus
    red, hence between 0.3 and 1.3: the blue channel is not confined to
    [0,1]. *)
Theorem rings_channels (u : Rings.Uniforms) (fc : vec2) :
  (v2y (Rings.iResolution u) = 0 -> Rings.main u fc = None)
  /\ (v2y (Rings.iResolution u) <> 0 ->
      exists c, Rings.main u fc = Some c
                /\ 0 <= v3x c <= 1
                /\ v3y c = 0.6 * v3x c
                /\ v3z c = 1.3 - v3x c).
Proof.
  split; intros H; unfold Rings.main; cbv zeta.
  - rewrite H, fdiv_zero. reflexivity.
  - rewrite !(fdiv_some _ _ H). cbn [bind].
    eexists. split; [ reflexivity | ]. cbn [v3x v3y v3z].
    match goal with
    | |- context [ sin ?x * sin ?y ] =>
        pose proof (SIN_bound x); pose proof (SIN_bound y);
        set (r := sin x) in *; set (s := sin y) in *; clearbody r s
    end.
    assert (-1 <= r * s <= 1) by (split; nra).
    repeat split; lra.
Qed.

(** X17.  shader5 with a resolution that has a non-positive component draws
    the picture of 1280x720. *)
Theorem single45_fallback_picture (u : Single45.Uniforms) (fc : vec2) :
  v2x (Single45.iResolution u) <= 0 \/ v2y (Single45.iResolution u) <= 0 ->
  Single45.main u fc
  = Single45.main {| Single45.iResolution := Vec2 1280.0 720.0;
                     Single45.iTime := Single45.iTime u;
                     Single45.speed := Single45.speed u;
                     Single45.warp := Single45.warp u;
                     Single45.thickness := Single45.thickness u;
                     Single45.colorShift := Single45.colorShift u |} fc.
Proof.
  intros H. unfold Single45.main.
  cbn [Single45.iResolution Single45.iTime Single45.speed Single45.warp
       Single45.thickness Single45.colorShift].
  rewrite (safeResolution_fallback _ H).
  rewrite (safeResolution_keeps (Vec2 1280.0 720.0)) by (cbn; lra).
  reflexivity.
Qed.

Lemma single45_fallback_picture_witness :
  Single45.main (Inputs.single45_at (Vec2 (-1) 720)) (Vec2 0.5 0.5)
  = Single45.main (Inputs.single45_at (Vec2 1280.0 720.0)) (Vec2 0.5 0.5).
Proof.
  apply (single45_fallback_picture (Inputs.single45_at (Vec2 (-1) 720)) (Vec2 0.5 0.5)).
  left. cbn. lra.
Defined.

(** X18.  shader5 floors the speed at 0.001: every speed at or below it,
    zero and negative ones included, draws the picture of speed 0.001, so
    the travel never runs backwards. *)
Theorem single45_speed_floor (u : Single45.Uniforms) (fc : vec2) :
  Single45.speed u <= 0.001 ->
  Single45.main u fc
  = Single45.main {| Single45.iResolution := Single45.iResolution u;
                     Single45.iTime := Single45.iTime u;
                     Single45.speed := 0.001;
                     Single45.warp := Single45.warp u;
                     Single45.thickness := Single45.thickness u;
                     Single45.colorShift := Single45.colorShift u |} fc.
Proof.
  intros H. unfold Single45.main.
  cbn [Single45.iResolution Single45.iTime Single45.speed Single45.warp
       Single45.thickness Single45.colorShift].
  assert (E : max (Single45.speed u) 0.001 = max 0.001 0.001).
  { unfold max. destruct (Rlt_dec (Single45.speed u) 0.001);
      destruct (Rlt_dec 0.001 0.001); lra. }
  rewrite E. reflexivity.
Qed.

Lemma single45_speed_floor_witness :
  Single45.main {| Single45.iResolution := Vec2 1280 720; Single45.iTime := 1;
                   Single45.speed := - 6; Single45.warp := 1;
                   Single45.thickness := 0.18; Single45.colorShift := 0 |}
                (Vec2 0.5 0.5)
  = Single45.main {| Single45.iResolution := Vec2 1280 720; Single45.iTime := 1;
                     Single45.speed := 0.001; Single45.warp := 1;
                     Single45.thickness := 0.18; Single45.colorShift := 0 |}
                  (Vec2 0.5 0.5).
Proof.
  apply (single45_speed_floor
           {| Single45.iResolution := Vec2 1280 720; Single45.iTime := 1;
              Single45.speed := - 6; Single45.warp := 1;
              Single45.thickness := 0.18; Single45.colorShift := 0 |}
           (Vec2 0.5 0.5)).
  cbn. lra.
Defined.

(** X19.  The second ray-marcher returns a colour exactly when the height of
    the resolution is not zero: its other division, by [0.5 + r], never
    fails. *)
Theorem plasma_main_defined (u : Plasma.Uniforms) (uv : vec2) :
  (v2y (Plasma.iResolution u) = 0 -> Plasma.main u uv = None)
  /\ (v2y (Plasma.iResolution u) <> 0 ->
      exists c, Plasma.main u uv = Some c /\ in_unit c).
Proof.
  split; intros H; unfold Plasma.main, Plasma.screen_p; cbv zeta.
  - rewrite H, fdiv_zero. reflexivity.
  - rewrite (fdiv_some _ _ H). cbn [bind].
    match goal with
    | |- context [ fdiv 1.0 (0.5 + length2 ?q) ] =>
        assert (Hr : 0.5 + length2 q <> 0)
          by (pose proof (length2_nonneg q); lra)
    end.
    rewrite (fdiv_some _ _ Hr). cbn [bind].
    eexists. split; [ reflexivity | apply plasma_shade_in_unit ].
Qed.

End OtherShaders.

(** ** The host: start-up outcomes, quitting, events, uniform writes *)
Section HostExtras.
Import Binary32 Host Startup.
Local Open Scope Z_scope.

(** X20.  Start-up has two outcomes.  Either it returns exit code 1 and has
    written to [std::cerr]; or it reaches the loop with the program name
    and the six locations, having printed the version line to [std::cout]
    and nothing else. *)
Theorem startup_outcomes (d : Driver) :
  (snd (startup d) = Exit 1 /\ reports_error (fst (startup d)) = true)
  \/ (snd (startup d) = Ready (Zpos (program_name d)) (uniform_locations d)
      /\ fst (startup d) = [(Cout, ("OpenGL: " ++ gl_version d ++ nl)%string)]).
Proof.
  unfold startup, compileShader, linkProgram.
  destruct (sdl_init d); [ left; split; reflexivity | ].
  destruct (create_window d); [ | left; split; reflexivity ].
  destruct (create_context d); [ | left; split; reflexivity ].
  destruct (glad_load d); [ | left; split; reflexivity ].
  cbn [negb].
  destruct (compile_status d GL_VERTEX_SHADER);
    [ left; destruct (compile_status d GL_FRAGMENT_SHADER); split; reflexivity | ].
  destruct (compile_status d GL_FRAGMENT_SHADER);
    [ left; cbn; split; reflexivity | ].
  cbn.
  destruct (link_status d); [ left; split; reflexivity | ].
  right. split; reflexivity.
Qed.

(** A property kept by every assignment of the key handler is kept by the
    handler; the assignment to [running] need only keep it for Escape. *)
Lemma let_inv (P : Session -> Prop) (v : Session) (k : Session -> Session) :
  P v -> (forall x, P x -> P (k x)) -> P (let x := v in k x).
Proof. intros Hv Hk. cbv zeta. apply Hk, Hv. Qed.

Lemma on_keydown_inv (P : Session -> Prop) (sym : Z) :
  (sym = SDLK_ESCAPE -> forall s, P s -> P (set_running false s)) ->
  (forall v s, P s -> P (set_speed v s)) ->
  (forall v s, P s -> P (set_warp v s)) ->
  (forall v s, P s -> P (set_thickness v s)) ->
  (forall v s, P s -> P (set_colorShift v s)) ->
  forall s, P s -> P (on_keydown sym s).
Proof.
  intros Hrun Hspeed Hwarp Hthick Hcol s Hs. cbv beta delta [on_keydown].
  repeat (lazymatch goal with
          | |- P (let x := ?v in @?k x) => apply (let_inv P v k)
          end;
          [ match goal with
            | |- context [ (sym =? ?key)%Z ] => destruct (Z.eqb_spec sym key)
            end; auto
          | clear s Hs; intros s Hs ]).
  exact Hs.
Qed.

Lemma handle_event_stopped (s : Session) (e : SDL_Event) :
  running s = false -> running (handle_event s e) = false.
Proof.
  intros H. destruct e as [ | sym | event data1 data2 | ]; cbn.
  - reflexivity.
  - apply (on_keydown_inv (fun x => running x = false)); auto.
  - destruct (event =? SDL_WINDOWEVENT_SIZE_CHANGED); cbn; exact H.
  - exact H.
Qed.

Lemma drain_stopped (evs : list SDL_Event) :
  forall s, running s = false -> running (drain s evs) = false.
Proof.
  induction evs as [ | e evs IH]; intros s H; cbn.
  - exact H.
  - apply IH, handle_event_stopped, H.
Qed.

Lemma escape_stops (s : Session) : running (on_keydown SDLK_ESCAPE s) = false.
Proof. reflexivity. Qed.

(** X21.  A quit request is final and takes effect after the frame: in the
    iteration whose queue holds [SDL_QUIT] or the Escape key, the remaining
    events of the queue are still applied and one last frame is drawn with
    the resulting values; no later iteration runs. *)
Theorem quit_draws_last_frame
  (s : Session) (evs : list SDL_Event) (t : float)
  (rest : list (list SDL_Event * float)) :
  running s = true ->
  In SDL_QUIT evs \/ In (SDL_KEYDOWN SDLK_ESCAPE) evs ->
  session_loop s ((evs, t) :: rest) = [frame_of (drain s evs) t].
Proof.
  intros Hrun Hq. cbn [session_loop]. rewrite Hrun.
  assert (Hstop : running (drain s evs) = false).
  { assert (Hin : exists e, In e evs /\ forall s0, running (handle_event s0 e) = false).
    { destruct Hq as [H | H]; eexists; (split; [ exact H | ]); intros s0;
        [ reflexivity | apply escape_stops ]. }
    destruct Hin as (e & Hin & He). clear Hq Hrun.
    revert s. induction evs as [ | e0 evs IH]; intros s; [ destruct Hin | ].
    cbn. destruct Hin as [-> | Hin].
    - apply drain_stopped, He.
    - apply IH, Hin. }
  destruct rest as [ | [evs' t'] rest]; cbn [session_loop]; [ reflexivity | ].
  rewrite Hstop. reflexivity.
Qed.

Lemma quit_draws_last_frame_witness :
  session_loop initial
    (([SDL_QUIT; SDL_KEYDOWN SDLK_UP], lit 0.5) :: [([], lit 1.0)])
  = [frame_of (drain initial [SDL_QUIT; SDL_KEYDOWN SDLK_UP]) (lit 0.5)].
Proof.
  apply (quit_draws_last_frame initial [SDL_QUIT; SDL_KEYDOWN SDLK_UP] (lit 0.5)
           [([], lit 1.0)]).
  - reflexivity.
  - left. simpl. left. reflexivity.
Defined.

Lemma keydown_keeps_size (sym : Z) (s : Session) :
  w (on_keydown sym s) = w s /\ h (on_keydown sym s) = h s.
Proof.
  apply (on_keydown_inv (fun x => w x = w s /\ h x = h s)); auto.
Qed.

(** X22.  Key presses never resize, and window events change neither a
    parameter nor the running flag. *)
Theorem event_kinds_separate (s : Session) :
  (forall sym,
      w (handle_event s (SDL_KEYDOWN sym)) = w s
      /\ h (handle_event s (SDL_KEYDOWN sym)) = h s)
  /\ (forall event data1 data2,
         let s' := handle_event s (SDL_WINDOWEVENT event data1 data2) in
         running s' = running s /\ speed s' = speed s /\ warp s' = warp s
         /\ thickness s' = thickness s /\ colorShift s' = colorShift s).
Proof.
  split.
  - intros sym. apply keydown_keeps_size.
  - intros event data1 data2 s'. subst s'. cbn.
    destruct (event =? SDL_WINDOWEVENT_SIZE_CHANGED); cbn; repeat split; reflexivity.
Qed.

(** X23.  Without a quit request every iteration draws: the frames carry the
    clock values of the iterations, one each and in order. *)
Theorem one_frame_per_iteration (polls : list (list SDL_Event * float)) :
  Forall (fun p => Forall (fun e => e <> SDL_QUIT /\ e <> SDL_KEYDOWN SDLK_ESCAPE)
                     (fst p)) polls ->
  forall s, running s = true ->
            map f_time (session_loop s polls) = map snd polls.
Proof.
  induction 1 as [ | [evs t] polls Hev _ IH]; intros s Hrun; cbn [session_loop map].
  - reflexivity.
  - rewrite Hrun. cbn [map frame_of f_time snd]. f_equal.
    apply IH. cbn [fst] in Hev. clear IH.
    revert s Hrun. induction Hev as [ | e evs [Hq Hesc] _ IHe]; intros s Hrun; cbn.
    + exact Hrun.
    + apply IHe. destruct e as [ | sym | event data1 data2 | ]; cbn.
      * congruence.
      * apply (on_keydown_inv (fun x => running x = true)); auto.
        intros ->. congruence.
      * destruct (event =? SDL_WINDOWEVENT_SIZE_CHANGED); cbn; exact Hrun.
      * exact Hrun.
Qed.

Lemma one_frame_per_iteration_witness :
  map f_time (session_loop initial
                [([SDL_KEYDOWN SDLK_UP], lit 0.5); ([], lit 1.0)])
  = map snd [([SDL_KEYDOWN SDLK_UP], lit 0.5); ([], lit 1.0)].
Proof.
  apply (one_frame_per_iteration [([SDL_KEYDOWN SDLK_UP], lit 0.5); ([], lit 1.0)]).
  - repeat constructor; discriminate.
  - reflexivity.
Defined.

(** X24.  The uniform writes of a frame reach the six looked-up locations
    only: every other location of the store keeps its value, and location
    -1, the answer for a name that did not resolve, is never written. *)
Theorem push_uniforms_frame (l : Locs) (f : Frame) (st : UStore) (loc : Z) :
  ~ In loc [locTime l; locRes l; locSpeed l; locWarp l; locThickness l;
            locColorShift l]
  \/ loc = -1 ->
  push_uniforms l f st loc = st loc.
Proof.
  intros H. unfold push_uniforms. cbv zeta.
  assert (H1 : forall (k : Z) (v : float) (st0 : UStore),
             k <> loc \/ loc = -1 -> glUniform1f k v st0 loc = st0 loc).
  { intros k v st0 Hk. unfold glUniform1f.
    destruct (Z.eqb_spec k (-1)) as [E | E]; [ reflexivity | ].
    apply store_set_other. destruct Hk; congruence. }
  assert (H2 : forall (k : Z) (v0 v1 : float) (st0 : UStore),
             k <> loc \/ loc = -1 -> glUniform2f k v0 v1 st0 loc = st0 loc).
  { intros k v0 v1 st0 Hk. unfold glUniform2f.
    destruct (Z.eqb_spec k (-1)) as [E | E]; [ reflexivity | ].
    apply store_set_other. destruct Hk; congruence. }
  assert (Hk : forall k, In k [locTime l; locRes l; locSpeed l; locWarp l;
                               locThickness l; locColorShift l] ->
                         k <> loc \/ loc = -1).
  { intros k Hin. destruct H as [H | H]; [ left | right; exact H ].
    intros ->. apply H, Hin. }
  rewrite !H1, H2, H1 by (apply Hk; simpl; tauto).
  reflexivity.
Qed.

Lemma push_uniforms_frame_witness :
  push_uniforms (uniform_locations tunnel_dev_driver)
    (frame_of initial (lit 1.0)) (fun _ => (lit 1.0, lit 1.0)) 0
  = (lit 1.0, lit 1.0).
Proof.
  apply (push_uniforms_frame (uniform_locations tunnel_dev_driver)
           (frame_of initial (lit 1.0)) (fun _ => (lit 1.0, lit 1.0)) 0).
  left. simpl. intros H.
  repeat (destruct H as [H | H]; [ discriminate H | ]). exact H.
Defined.



Lemma on_keydown_left (s : Session) :
  on_keydown SDLK_LEFT s = set_warp (std_max (lit 0.1) (sub (warp s) (lit 0.1))) s.
Proof. reflexivity. Qed.

Lemma on_keydown_z (s : Session) :
  on_keydown SDLK_z s
  = set_thickness (std_max (lit 0.01) (sub (thickness s) (lit 0.01))) s.
Proof. reflexivity. Qed.

Lemma on_keydown_up (s : Session) :
  on_keydown SDLK_UP s = set_speed (mul (speed s) (lit 1.1)) s.
Proof. reflexivity. Qed.

Lemma on_keydown_down (s : Session) :
  on_keydown SDLK_DOWN s = set_speed (div (speed s) (lit 1.1)) s.
Proof. reflexivity. Qed.

Lemma std_max_floor (c x : float) : leb c c = true -> leb c (std_max c x) = true.
Proof.
  intros Hc. unfold std_max. destruct (ltb c x) eqn:E.
  - apply ltb_leb, E.
  - exact Hc.
Qed.

(** X25.  One press of Left (resp. z) puts the warp (resp. the thickness) at
    or above its floor from any state whatever, a NaN or a value below the
    floor included: [std::max(floor, x)] returns the floor unless
    [floor < x]. *)
Theorem decrement_key_restores_floor (s : Session) :
  leb (lit 0.1) (warp (on_keydown SDLK_LEFT s)) = true
  /\ leb (lit 0.01) (thickness (on_keydown SDLK_z s)) = true.
Proof.
  rewrite on_keydown_left, on_keydown_z. cbn [warp thickness set_warp set_thickness].
  split; apply std_max_floor; vm_compute; reflexivity.
Qed.

Lemma handle_event_infinite (s : Session) (e : SDL_Event) :
  speed s = S754_infinity false -> speed (handle_event s e) = S754_infinity false.
Proof.
  intros H.
  destruct e as [ | sym | event data1 data2 | ]; try exact H.
  - cbn [handle_event].
    destruct (Z.eq_dec sym SDLK_UP) as [-> | Hup].
    { rewrite on_keydown_up. cbn [speed set_speed]. rewrite H. reflexivity. }
    destruct (Z.eq_dec sym SDLK_DOWN) as [-> | Hdown].
    { rewrite on_keydown_down. cbn [speed set_speed]. rewrite H. reflexivity. }
    rewrite <- H. apply (speed_frame s (SDL_KEYDOWN sym)); congruence.
  - rewrite <- H. apply (speed_frame s (SDL_WINDOWEVENT event data1 data2));
      discriminate.
Qed.

(** X26.  An infinite speed is final: once the products of the Up key have
    overflowed to +infinity, no sequence of events, Down included, brings
    the speed back to a finite value. *)
Theorem infinite_speed_is_final (s : Session) (evs : list SDL_Event) :
  speed s = S754_infinity false ->
  speed (drain s evs) = S754_infinity false.
Proof.
  revert s. induction evs as [ | e evs IH]; intros s H; cbn.
  - exact H.
  - apply IH, handle_event_infinite, H.
Qed.

Lemma infinite_speed_is_final_witness :
  speed (drain (drain initial (repeat (SDL_KEYDOWN SDLK_UP) 913))
               [SDL_KEYDOWN SDLK_DOWN; SDL_KEYDOWN SDLK_DOWN])
  = S754_infinity false.
Proof.
  apply (infinite_speed_is_final
           (drain initial (repeat (SDL_KEYDOWN SDLK_UP) 913))
           [SDL_KEYDOWN SDLK_DOWN; SDL_KEYDOWN SDLK_DOWN]).
  vm_compute. reflexivity.
Defined.

End HostExtras.

(** ** From the event loop to the pixels *)
Section EndToEnd.
Import Binary32 Host Startup.
Local Open Scope Z_scope.

Lemma drain_keeps_size (evs : list SDL_Event) :
  Forall not_resize evs ->
  forall s, w (drain s evs) = w s /\ h (drain s evs) = h s.
Proof.
  induction 1 as [ | e evs He _ IH]; intros s; cbn.
  - split; reflexivity.
  - destruct (IH (handle_event s e)) as [Hw Hh].
    fold (drain (handle_event s e) evs). rewrite Hw, Hh. clear IH Hw Hh.
    destruct e as [ | sym | event data1 data2 | ]; try (split; reflexivity).
    + apply keydown_keeps_size.
    + cbn. cbn in He.
      destruct (Z.eqb_spec event SDL_WINDOWEVENT_SIZE_CHANGED); [ contradiction | ].
      split; reflexivity.
Qed.

Lemma drain_resized (s : Session) (before after : list SDL_Event) (data1 data2 : Z) :
  Forall not_resize after ->
  let s' := drain s (before
                     ++ SDL_WINDOWEVENT SDL_WINDOWEVENT_SIZE_CHANGED data1 data2
                     :: after) in
  w s' = data1 /\ h s' = data2.
Proof.
  intros Hafter s'. subst s'.
  unfold drain. rewrite fold_left_app. cbn [fold_left].
  fold (drain s before).
  match goal with
  | |- context [ fold_left handle_event after ?s0 ] =>
      fold (drain s0 after); destruct (drain_keeps_size after Hafter s0) as [Hw Hh]
  end.
  rewrite Hw, Hh. cbn. split; reflexivity.
Qed.

(** X27.  The last size-changed event of a queue decides the size of the
    frame drawn after it, whatever came before it and whatever other events
    follow. *)
Theorem last_resize_wins
  (s : Session) (before after : list SDL_Event) (data1 data2 : Z) (t : float) :
  Forall not_resize after ->
  let f := frame_of
             (drain s (before
                       ++ SDL_WINDOWEVENT SDL_WINDOWEVENT_SIZE_CHANGED data1 data2
                       :: after)) t in
  f_width f = data1 /\ f_height f = data2.
Proof.
  intros Hafter f. subst f. unfold frame_of. cbn [f_width f_height].
  apply (drain_resized s before after data1 data2 Hafter).
Qed.

Lemma last_resize_wins_witness :
  f_width (frame_of
             (drain initial
                ([SDL_WINDOWEVENT SDL_WINDOWEVENT_SIZE_CHANGED 800 600]
                 ++ SDL_WINDOWEVENT SDL_WINDOWEVENT_SIZE_CHANGED 640 480
                 :: [SDL_KEYDOWN SDLK_UP; SDL_WINDOWEVENT 1 0 0]))
             (lit 0.5)) = 640
  /\ f_height (frame_of
                 (drain initial
                    ([SDL_WINDOWEVENT SDL_WINDOWEVENT_SIZE_CHANGED 800 600]
                     ++ SDL_WINDOWEVENT SDL_WINDOWEVENT_SIZE_CHANGED 640 480
                     :: [SDL_KEYDOWN SDLK_UP; SDL_WINDOWEVENT 1 0 0]))
                 (lit 0.5)) = 480.
Proof.
  apply (last_resize_wins initial
           [SDL_WINDOWEVENT SDL_WINDOWEVENT_SIZE_CHANGED 800 600]
           [SDL_KEYDOWN SDLK_UP; SDL_WINDOWEVENT 1 0 0] 640 480 (lit 0.5)).
  repeat constructor. discriminate.
Defined.

(** X28.  A window resized to height 0 leaves shader1 without a colour: the
    host passes the height on as it is, and the frame drawn after such an
    event has no defined colour at any pixel. *)
Theorem zero_height_frame_undefined
  (l : Locs) (s : Session) (before after : list SDL_Event) (data1 : Z)
  (t : float) (st : UStore) (uv : Glsl.vec2) :
  resolved l ->
  Forall not_resize after ->
  draw_fragment l
    (frame_of (drain s (before
                        ++ SDL_WINDOWEVENT SDL_WINDOWEVENT_SIZE_CHANGED data1 0
                        :: after)) t)
    st uv
  = None.
Proof.
  intros Hl Hafter. unfold draw_fragment. rewrite (push_uniforms_read l _ st Hl).
  apply circles_main_zero_height.
  unfold frame_uniforms, frame_of. cbn [Circles.iResolution Glsl.v2y f_height].
  destruct (drain_resized s before after data1 0 Hafter) as [_ Hh].
  cbv zeta in Hh. rewrite Hh. reflexivity.
Qed.

Lemma zero_height_frame_undefined_witness :
  draw_fragment (uniform_locations circles_driver)
    (frame_of (drain initial
                 ([] ++ SDL_WINDOWEVENT SDL_WINDOWEVENT_SIZE_CHANGED 1280 0
                  :: [SDL_KEYDOWN SDLK_UP])) (lit 1.0))
    (fun _ => (lit 0.0, lit 0.0)) (Glsl.Vec2 0.5%R 0.5%R)
  = None.
Proof.
  apply (zero_height_frame_undefined (uniform_locations circles_driver) initial
           [] [SDL_KEYDOWN SDLK_UP] 1280 (lit 1.0)
           (fun _ => (lit 0.0, lit 0.0)) (Glsl.Vec2 0.5%R 0.5%R)).
  - exact circles_driver_resolved.
  - repeat constructor.
Defined.





End EndToEnd.
